(** * d3-force: the simulation driver ([src/simulation.ts]) and the
    [@property] decorator ([src/util.ts]), embedded in Rocq.

    JavaScript numbers are IEEE-754 binary64 values, so they are modelled by
    the kernel's primitive floats ([PrimFloat]): [+], [-], [*], [<], [<=],
    [Math.sqrt] and [isNaN] are the primitive operations.  [Math.cos],
    [Math.sin] and [Math.pow] belong to the host platform (ECMAScript leaves
    their results implementation-approximated) and are parameters of the
    development.

    Node objects are shared between the caller, the simulation and the forces:
    they live in a heap indexed by location, and a node array is a list of
    locations, so the same object may occur twice in one array. *)

From Stdlib Require Import ZArith List Bool String Lia.
From Stdlib Require Import Floats.
From Stdlib Require Uint63.
Import ListNotations.

Set Warnings "-inexact-float".
Local Open Scope float_scope.

(** ** JavaScript values *)

(** A field of type [number | null | undefined] ([fx], [fy]). *)
Inductive nullable : Type :=
| Undefined
| Null
| Num (v : float).

(** [v != null]: false for both [null] and [undefined]. *)
Definition neq_null (v : nullable) : bool :=
  match v with
  | Num _ => true
  | _ => false
  end.

(** ToNumber on a field of type [number | undefined]. *)
Definition ToNumber (v : option float) : float :=
  match v with
  | Some n => n
  | None => nan
  end.

(** The global [isNaN]: ToNumber, then the NaN test. *)
Definition isNaN (v : option float) : bool := is_nan (ToNumber v).

(** The number held by a loop counter or array index. *)
Definition number_of_nat (i : nat) : float :=
  of_uint63 (Uint63.of_Z (Z.of_nat i)).

Definition Math_PI : float := 0x1.921fb54442d18p+1.

(** ** Nodes ([SimulationNodeDatum]) *)

Module Node.
Record t : Type := mk {
  index : option nat;
  x : option float;
  y : option float;
  vx : option float;
  vy : option float;
  fx : nullable;
  fy : nullable
}.

(** The object literal [{}]. *)
Definition empty : t := mk None None None None None Undefined Undefined.
End Node.

(** ** The heap of node objects *)

Definition loc : Type := nat.
Definition Heap : Type := loc -> Node.t.

Definition upd (h : Heap) (l : loc) (n : Node.t) : Heap :=
  fun l' => if Nat.eqb l' l then n else h l'.

(** What a method call completes with: a value, [this], or a thrown error. *)
Inductive Error (T : Type) : Type :=
| InvalidValue (name : string) (value : T).
Arguments InvalidValue {T} name value.

Inductive outcome (T : Type) : Type :=
| Value (v : T)
| This
| Thrown (e : Error T).
Arguments Value {T} v.
Arguments This {T}.
Arguments Thrown {T} e.

(** ** Insertion-ordered [Map<string, V>] *)

Section JsMap.
Context {V : Type}.

Fixpoint Map_get (m : list (string * V)) (k : string) : option V :=
  match m with
  | [] => None
  | (k', v) :: m' => if String.eqb k' k then Some v else Map_get m' k
  end.

(** [set] keeps the position of a key that is present and appends a new one. *)
Fixpoint Map_set (m : list (string * V)) (k : string) (v : V) : list (string * V) :=
  match m with
  | [] => [(k, v)]
  | (k', v') :: m' =>
      if String.eqb k' k then (k, v) :: m' else (k', v') :: Map_set m' k v
  end.

(** [delete] drops the entry of the key; the other entries keep their order. *)
Definition Map_delete (m : list (string * V)) (k : string) : list (string * V) :=
  filter (fun kv => negb (String.eqb (fst kv) k)) m.

(** [forEach]: the callback runs on the values in insertion order. *)
Definition Map_forEach {S : Type} (m : list (string * V)) (f : V -> S -> S) (s : S) : S :=
  fold_left (fun s kv => f (snd kv) s) m s.
End JsMap.

Section Driver.

(** State private to the forces and the rest of the program. *)
Variable E : Type.
(** Random sources ([() => number]); [lcg ()] is the default one. *)
Variable Rand : Type.
Variable lcg : Rand.
(** Platform functions. *)
Variable Math_cos Math_sin : float -> float.
Variable Math_pow : float -> float -> float.

(** Everything the simulation shares with its environment. *)
Record World : Type := mkWorld {
  heap : Heap;
  ext : E
}.

(** A force ([Force] of [force.d.ts]): a callable [(alpha) => void] with an
    optional [initialize(nodes, random)].  A force acts on the node objects
    and on its own state; it does not resize the simulation's node array
    nor call back into the simulation. *)
Record Force : Type := mkForce {
  apply : float -> World -> World;
  initialize : option (list loc -> Rand -> World -> World)
}.

(** The fields of [class Simulation]. *)
Record Simulation : Type := mkSimulation {
  _alpha : float;
  _alphaMin : float;
  _alphaDecay : float;
  _alphaTarget : float;
  _velocityDecay : float;
  _nodes : list loc;
  _randomSource : Rand;
  forces : list (string * Force)
}.

Record State : Type := mkState {
  sim : Simulation;
  world : World
}.

(** *** [property] ([util.ts]) *)

Record PropertyOptions (T : Type) : Type := mkOptions {
  onGet : option (T -> State -> State);
  onSet : option (T -> T -> State -> State);
  validator : option (T -> bool);
  transform : option (T -> T)
}.
Arguments mkOptions {T} onGet onSet validator transform.
Arguments onGet {T} p.
Arguments onSet {T} p.
Arguments validator {T} p.
Arguments transform {T} p.

(** The private field [_name] behind a decorated field [name]. *)
Record PrivateKey (T : Type) : Type := mkKey {
  key_name : string;
  key_get : Simulation -> T;
  key_set : T -> Simulation -> Simulation
}.
Arguments mkKey {T} key_name key_get key_set.
Arguments key_name {T} p.
Arguments key_get {T} p.
Arguments key_set {T} p.

Definition no_options {T : Type} : PropertyOptions T :=
  mkOptions None None None None.

(** The method built by the decorator; [arg = None] is a call without
    arguments. *)
Definition property {T : Type} (options : PropertyOptions T) (key : PrivateKey T)
           (arg : option T) (st : State) : outcome T * State :=
  match arg with
  | None =>
      let currentValue := key_get key (sim st) in
      let currentValue :=
        match transform options with
        | Some f => f currentValue
        | None => currentValue
        end in
      let st :=
        match onGet options with
        | Some g => g currentValue st
        | None => st
        end in
      (Value currentValue, st)
  | Some value =>
      let newValue := value in
      let invalid :=
        match validator options with
        | Some ok => negb (ok newValue)
        | None => false
        end in
      if invalid then (Thrown (InvalidValue (key_name key) newValue), st)
      else
        let newValue :=
          match transform options with
          | Some f => f newValue
          | None => newValue
          end in
        let oldValue := key_get key (sim st) in
        let st := mkState (key_set key newValue (sim st)) (world st) in
        let st :=
          match onSet options with
          | Some g => g oldValue newValue st
          | None => st
          end in
        (This, st)
  end.

(** *** Private keys of the simulation *)

Definition set_alpha (v : float) (s : Simulation) : Simulation :=
  mkSimulation v (_alphaMin s) (_alphaDecay s) (_alphaTarget s)
               (_velocityDecay s) (_nodes s) (_randomSource s) (forces s).
Definition set_alphaMin (v : float) (s : Simulation) : Simulation :=
  mkSimulation (_alpha s) v (_alphaDecay s) (_alphaTarget s)
               (_velocityDecay s) (_nodes s) (_randomSource s) (forces s).
Definition set_alphaDecay (v : float) (s : Simulation) : Simulation :=
  mkSimulation (_alpha s) (_alphaMin s) v (_alphaTarget s)
               (_velocityDecay s) (_nodes s) (_randomSource s) (forces s).
Definition set_alphaTarget (v : float) (s : Simulation) : Simulation :=
  mkSimulation (_alpha s) (_alphaMin s) (_alphaDecay s) v
               (_velocityDecay s) (_nodes s) (_randomSource s) (forces s).
Definition set_velocityDecay (v : float) (s : Simulation) : Simulation :=
  mkSimulation (_alpha s) (_alphaMin s) (_alphaDecay s) (_alphaTarget s)
               v (_nodes s) (_randomSource s) (forces s).
Definition set_nodes (v : list loc) (s : Simulation) : Simulation :=
  mkSimulation (_alpha s) (_alphaMin s) (_alphaDecay s) (_alphaTarget s)
               (_velocityDecay s) v (_randomSource s) (forces s).
Definition set_randomSource (v : Rand) (s : Simulation) : Simulation :=
  mkSimulation (_alpha s) (_alphaMin s) (_alphaDecay s) (_alphaTarget s)
               (_velocityDecay s) (_nodes s) v (forces s).
Definition set_forces (v : list (string * Force)) (s : Simulation) : Simulation :=
  mkSimulation (_alpha s) (_alphaMin s) (_alphaDecay s) (_alphaTarget s)
               (_velocityDecay s) (_nodes s) (_randomSource s) v.

Definition key_alpha := mkKey "alpha" _alpha set_alpha.
Definition key_alphaMin := mkKey "alphaMin" _alphaMin set_alphaMin.
Definition key_alphaDecay := mkKey "alphaDecay" _alphaDecay set_alphaDecay.
Definition key_alphaTarget := mkKey "alphaTarget" _alphaTarget set_alphaTarget.
Definition key_velocityDecay := mkKey "velocityDecay" _velocityDecay set_velocityDecay.
Definition key_nodes := mkKey "nodes" _nodes set_nodes.
Definition key_randomSource := mkKey "randomSource" _randomSource set_randomSource.

(** *** [initializeNodes] *)

Definition initialRadius : float := 10.
Definition initialAngle : float := Math_PI * (3 - PrimFloat.sqrt 5).

(** The body of the loop of [initializeNodes], for the node at index [i]. *)
Definition initializeNode (i : nat) (node : Node.t) : Node.t :=
  let x := match Node.fx node with Num v => Some v | _ => Node.x node end in
  let y := match Node.fy node with Num v => Some v | _ => Node.y node end in
  let '(x, y) :=
    if isNaN x || isNaN y then
      let radius := initialRadius * PrimFloat.sqrt (0.5 + number_of_nat i) in
      let angle := number_of_nat i * initialAngle in
      (Some (radius * Math_cos angle), Some (radius * Math_sin angle))
    else (x, y) in
  let '(vx, vy) :=
    if isNaN (Node.vx node) || isNaN (Node.vy node) then (Some 0, Some 0)
    else (Node.vx node, Node.vy node) in
  Node.mk (Some i) x y vx vy (Node.fx node) (Node.fy node).

Fixpoint initializeNodes_from (i : nat) (nodes : list loc) (h : Heap) : Heap :=
  match nodes with
  | [] => h
  | l :: rest => initializeNodes_from (S i) rest (upd h l (initializeNode i (h l)))
  end.

Definition initializeNodes (st : State) : State :=
  mkState (sim st)
          (mkWorld (initializeNodes_from 0 (_nodes (sim st)) (heap (world st)))
                   (ext (world st))).

(** *** [initializeForce] and [force] *)

Definition initializeForce (s : Simulation) (force : Force) (w : World) : World :=
  match initialize force with
  | Some init => init (_nodes s) (_randomSource s) w
  | None => w
  end.

(** [force(name)] is [arg = None]; [force(name, null)] is [Some None]. *)
Definition force (name : string) (arg : option (option Force)) (st : State)
  : outcome (option Force) * State :=
  match arg with
  | Some None =>
      (This, mkState (set_forces (Map_delete (forces (sim st)) name) (sim st)) (world st))
  | Some (Some f) =>
      let w := initializeForce (sim st) f (world st) in
      (This, mkState (set_forces (Map_set (forces (sim st)) name f) (sim st)) w)
  | None => (Value (Map_get (forces (sim st)) name), st)
  end.

(** *** The decorated fields *)

Definition unit_interval (value : float) : bool :=
  (0 <=? value) && (value <=? 1).

Definition alpha := property (mkOptions None None (Some unit_interval) None) key_alpha.
Definition alphaMin := property (mkOptions None None (Some unit_interval) None) key_alphaMin.
Definition alphaDecay := property (mkOptions None None (Some unit_interval) None) key_alphaDecay.
Definition alphaTarget := property (mkOptions None None (Some unit_interval) None) key_alphaTarget.
Definition velocityDecay :=
  property (mkOptions None None (Some unit_interval) (Some (fun value => 1 - value)))
           key_velocityDecay.

Definition nodes :=
  property
    (mkOptions None
       (Some (fun (_ _ : list loc) st =>
                let st := initializeNodes st in
                mkState (sim st)
                        (Map_forEach (forces (sim st)) (initializeForce (sim st)) (world st))))
       None None)
    key_nodes.

Definition randomSource := property no_options key_randomSource.

(** [new Simulation()]: the field initialisers (the timer and the event
    dispatcher are collaborators outside this development). *)
Definition new_Simulation : Simulation :=
  mkSimulation 1.0 0.001 (1 - Math_pow 0.001 (1 / 300)) 0 0.6 [] lcg [].

(** *** [tick] *)

(** The two statements of the inner loop, for one node. *)
Definition integrate (velocityDecay : float) (node : Node.t) : Node.t :=
  let '(x, vx) :=
    match Node.fx node with
    | Num f => (Some f, Some 0)
    | _ =>
        let vx := ToNumber (Node.vx node) * velocityDecay in
        (Some (ToNumber (Node.x node) + vx), Some vx)
    end in
  let '(y, vy) :=
    match Node.fy node with
    | Num f => (Some f, Some 0)
    | _ =>
        let vy := ToNumber (Node.vy node) * velocityDecay in
        (Some (ToNumber (Node.y node) + vy), Some vy)
    end in
  Node.mk (Node.index node) x y vx vy (Node.fx node) (Node.fy node).

Fixpoint integrateNodes (velocityDecay : float) (nodes : list loc) (h : Heap) : Heap :=
  match nodes with
  | [] => h
  | l :: rest => integrateNodes velocityDecay rest (upd h l (integrate velocityDecay (h l)))
  end.

(** The forces run in the map's order, each with the updated alpha. *)
Definition applyForces (alpha : float) (fs : list (string * Force)) (w : World) : World :=
  Map_forEach fs (fun force w => apply force alpha w) w.

(** One iteration of the outer loop of [tick]. *)
Definition tick_iteration (st : State) : State :=
  let s := sim st in
  let s := set_alpha (_alpha s + (_alphaTarget s - _alpha s) * _alphaDecay s) s in
  let w := applyForces (_alpha s) (forces s) (world st) in
  mkState s (mkWorld (integrateNodes (_velocityDecay s) (_nodes s) (heap w)) (ext w)).

Fixpoint tick_loop (iterations : nat) (st : State) : State :=
  match iterations with
  | O => st
  | S k => tick_loop k (tick_iteration st)
  end.

(** [tick(iterations?)], for an integral count. *)
Definition tick (iterations : option nat) (st : State) : outcome unit * State :=
  let iterations := match iterations with None => 1%nat | Some n => n end in
  (This, tick_loop iterations st).

(** *** [find] *)

Definition distance2 (x y : float) (node : Node.t) : float :=
  let dx := x - ToNumber (Node.x node) in
  let dy := y - ToNumber (Node.y node) in
  dx * dx + dy * dy.

Fixpoint find_loop (x y : float) (h : Heap) (nodes : list loc)
         (closest : option loc) (radius : float) : option loc :=
  match nodes with
  | [] => closest
  | l :: rest =>
      let d2 := distance2 x y (h l) in
      if d2 <? radius then find_loop x y h rest (Some l) d2
      else find_loop x y h rest closest radius
  end.

(** [find(x, y, radius?)]: the closest node object, or [None] for
    [undefined]. *)
Definition find (x y : float) (radius : option float) (st : State) : option loc :=
  let radius :=
    match radius with
    | None => infinity
    | Some r => r * r
    end in
  find_loop x y (heap (world st)) (_nodes (sim st)) None radius.

(** [forceSimulation(nodesData?)]. *)
Definition forceSimulation (nodesData : option (list loc)) (w : World) : outcome (list loc) * State :=
  let nodesData := match nodesData with None => [] | Some a => a end in
  nodes (Some nodesData) (mkState new_Simulation w).

End Driver.

Arguments mkWorld {E} heap ext.
Arguments heap {E} w.
Arguments ext {E} w.
Arguments mkForce {E Rand} apply initialize.
Arguments apply {E Rand} f alpha w.
Arguments initialize {E Rand} f.
Arguments mkSimulation {E Rand}.
Arguments _alpha {E Rand} s.
Arguments _alphaMin {E Rand} s.
Arguments _alphaDecay {E Rand} s.
Arguments _alphaTarget {E Rand} s.
Arguments _velocityDecay {E Rand} s.
Arguments _nodes {E Rand} s.
Arguments _randomSource {E Rand} s.
Arguments forces {E Rand} s.
Arguments mkState {E Rand} sim world.
Arguments sim {E Rand} s.
Arguments world {E Rand} s.
Arguments set_alpha {E Rand} v s.
Arguments set_alphaMin {E Rand} v s.
Arguments set_alphaDecay {E Rand} v s.
Arguments set_alphaTarget {E Rand} v s.
Arguments set_velocityDecay {E Rand} v s.
Arguments set_nodes {E Rand} v s.
Arguments set_randomSource {E Rand} v s.
Arguments set_forces {E Rand} v s.
Arguments initializeNodes {E Rand} Math_cos Math_sin st.
Arguments initializeForce {E Rand} s force w.
Arguments force {E Rand} name arg st.
Arguments alpha {E Rand} arg st.
Arguments alphaMin {E Rand} arg st.
Arguments alphaDecay {E Rand} arg st.
Arguments alphaTarget {E Rand} arg st.
Arguments velocityDecay {E Rand} arg st.
Arguments nodes {E Rand} Math_cos Math_sin arg st.
Arguments randomSource {E Rand} arg st.
Arguments new_Simulation {E Rand} lcg Math_pow.
Arguments applyForces {E Rand} alpha fs w.
Arguments tick_iteration {E Rand} st.
Arguments tick_loop {E Rand} iterations st.
Arguments tick {E Rand} iterations st.
Arguments find {E Rand} x y radius st.
Arguments forceSimulation {E Rand} lcg Math_cos Math_sin Math_pow nodesData w.

(** ** Predicates of the statements *)

(** The fixed-node invariant, for one object. *)
Definition pinned (n : Node.t) : Prop :=
  (forall f, Node.fx n = Num f -> Node.x n = Some f /\ Node.vx n = Some 0)
  /\ (forall f, Node.fy n = Num f -> Node.y n = Some f /\ Node.vy n = Some 0).

(** A force whose [initialize] leaves the node objects as they are (it
    may record the array and precompute parameters of its own). *)
Definition keeps_nodes {E Rand} (f : Force E Rand) : Prop :=
  match initialize f with
  | Some init => forall ns r w l, heap (init ns r w) l = heap w l
  | None => True
  end.

(** Agreement within the tolerance of the end-to-end scenarios. *)
Definition approx (v expected : float) : bool :=
  abs (v - expected) <=? 1e-12.

(** [r] is the float [c] or one of its two neighbours. *)
Definition within_one_ulp (r c : float) : Prop :=
  r = next_down c \/ r = c \/ r = next_up c.

(** A number that is [+0] or [-0], or finite and not zero. *)
Definition zero_or_finite (x : float) : Prop :=
  match Prim2SF x with
  | S754_zero _ | S754_finite _ _ _ => True
  | _ => False
  end.

(** An object with a position and a velocity (no NaN) and no fixed
    coordinate. *)
Definition settled (n : Node.t) : Prop :=
  neq_null (Node.fx n) = false /\ neq_null (Node.fy n) = false
  /\ isNaN (Node.x n) = false /\ isNaN (Node.y n) = false
  /\ isNaN (Node.vx n) = false /\ isNaN (Node.vy n) = false.

(** A free coordinate at rest at [a]: no fixed value, a velocity that is a
    zero, and a position that is [a] (or a zero of the other sign when [a] is
    a zero). *)
Definition rest_at (a : float) (f : nullable) (p v : option float) : Prop :=
  neq_null f = false
  /\ exists p' v',
      p = Some p' /\ v = Some v' /\ is_zero v' = true
      /\ (p' = a \/ (is_zero p' = true /\ is_zero a = true)).

(** ** A concrete program to run the model on *)

Module Demo.

(** The forces of the examples keep a log of their calls. *)
Definition E : Type := list string.

(** A random source is identified by its seed. *)
Definition Rand : Type := nat.
Definition lcg : Rand := 1%nat.

(** A platform whose [Math.cos] and [Math.sin] return the correctly rounded
    cosine and sine at the three seeding angles of indices 0, 1 and 2. *)
Definition Math_cos (a : float) : float :=
  if a =? 0 then 1
  else if a =? 2.399963229728653 then -0.7373688780783197
  else if a =? 4.799926459457306 then 0.08742572471695988
  else 0.

Definition Math_sin (a : float) : float :=
  if a =? 0 then 0
  else if a =? 2.399963229728653 then 0.6754902942615238
  else if a =? 4.799926459457306 then -0.9961710408648278
  else 0.

Definition Math_pow (_ _ : float) : float := 0.9772372209558107.

Definition add_vx (dv : float) (n : Node.t) : Node.t :=
  Node.mk (Node.index n) (Node.x n) (Node.y n)
          (Some (ToNumber (Node.vx n) + dv)) (Node.vy n) (Node.fx n) (Node.fy n).

(** A force that adds [alpha * k] to the x-velocity of every object, moves it
    by one along x, and logs its name; its [initialize] logs too. *)
Definition push (name : string) (k : float) : Force E Rand :=
  mkForce
    (fun alpha w =>
       mkWorld
         (fun l =>
            let n := add_vx (alpha * k) (heap w l) in
            Node.mk (Node.index n) (Some (ToNumber (Node.x n) + 1)) (Node.y n)
                    (Node.vx n) (Node.vy n) (Node.fx n) (Node.fy n))
         (ext w ++ [name])%list)
    (Some (fun _ _ w => mkWorld (heap w) (ext w ++ [("init " ++ name)%string])%list)).

(** A force without [initialize]: it only logs its name. *)
Definition quiet (name : string) : Force E Rand :=
  mkForce (fun _ w => mkWorld (heap w) (ext w ++ [name])%list) None.

(** The objects of the examples; every other location holds [{}]. *)
Definition heap0 : Heap :=
  fun l =>
    match l with
    | 0%nat => Node.mk None (Some 1) (Some 2) (Some 3) (Some 4) (Num 7) Undefined
    | 1%nat => Node.mk None (Some 5) (Some 0) None None Undefined Undefined
    | 2%nat => Node.mk None None None None None (Num 0) (Num 0)
    | 3%nat => Node.mk None (Some 10) (Some 16) None None Undefined Undefined
    | 4%nat => Node.mk None (Some (-10)) (Some (-4)) None None Undefined Undefined
    | 5%nat => Node.mk None (Some 1e200) (Some 0) None None Undefined Undefined
    | 6%nat => Node.mk None (Some infinity) (Some 0) None None Undefined Undefined
    | 7%nat => Node.mk None None None None None (Num 5) Undefined
    | 8%nat => Node.mk None (Some 1) (Some 2) (Some 3) None Undefined Undefined
    | 9%nat => Node.mk None (Some 3) None (Some 1) (Some 1) Undefined Undefined
    | _ => Node.empty
    end.

Definition world0 : World E := mkWorld heap0 [].

Definition fresh : State E Rand := mkState (new_Simulation lcg Math_pow) world0.

(** [forceSimulation([o0, o1, o2]).force("a", push).force("b", quiet)]. *)
Definition st0 : State E Rand :=
  let st := snd (nodes Math_cos Math_sin (Some [0; 1; 2]%nat) fresh) in
  let st := snd (force "a" (Some (Some (push "a" 2))) st) in
  snd (force "b" (Some (Some (quiet "b"))) st).

(** [forceSimulation(arr)] on the objects above. *)
Definition sim_of (arr : list loc) : State E Rand :=
  snd (forceSimulation lcg Math_cos Math_sin Math_pow (Some arr) world0).

End Demo.

(** Three nodes at the same distance of the origin, after a farther one. *)
Module Ties.

Definition heap0 : Heap :=
  fun l =>
    match l with
    | 0%nat => Node.mk None (Some 3) (Some 4) None None Undefined Undefined
    | 1%nat => Node.mk None (Some 5) (Some 0) None None Undefined Undefined
    | 2%nat => Node.mk None (Some 4) (Some 3) None None Undefined Undefined
    | 3%nat => Node.mk None (Some 6) (Some 8) None None Undefined Undefined
    | _ => Node.empty
    end.

Definition st : State Demo.E Demo.Rand :=
  snd (forceSimulation Demo.lcg Demo.Math_cos Demo.Math_sin Demo.Math_pow
                       (Some [3; 0; 1; 2]%nat) (mkWorld heap0 [])).

End Ties.

(** * Properties *)

(** ** Order on binary64 numbers

    [<] and [<=] on floats, read through their specification on
    [spec_float]: NaN compares with nothing, the other values are totally
    preordered. *)

Module FloatOrder.

Lemma compare_cont_Eq (m1 m2 : positive) :
  PosDef.Pos.compare_cont Eq m1 m2 = Pos.compare m1 m2.
Proof. reflexivity. Qed.

Lemma compare_cont_spec (m1 m2 : positive) :
  CompareSpec (m1 = m2) (m1 < m2)%positive (m2 < m1)%positive
              (PosDef.Pos.compare_cont Eq m1 m2).
Proof. exact (Pos.compare_spec m1 m2). Qed.

Lemma SFcompare_antisym (a b : spec_float) :
  SFcompare b a = option_map CompOpp (SFcompare a b).
Proof.
  destruct a as [sa|sa| |sa ma ea], b as [sb|sb| |sb mb eb]; simpl;
    try reflexivity;
    try (destruct sa; reflexivity); try (destruct sb; reflexivity);
    try (destruct sa, sb; reflexivity).
  rewrite !compare_cont_Eq.
  rewrite (Z.compare_antisym ea eb), (Pos.compare_antisym ma mb).
  destruct sa, sb; simpl; try reflexivity;
    destruct (ea ?= eb)%Z; simpl; try reflexivity;
    destruct (ma ?= mb)%positive; reflexivity.
Qed.

Lemma SFcompare_refl (a : spec_float) :
  a <> S754_nan -> SFcompare a a = Some Eq.
Proof.
  destruct a as [s|s| |s m e]; simpl; intros Hn; try congruence.
  - now destruct s.
  - rewrite compare_cont_Eq, Z.compare_refl, Pos.compare_refl. now destruct s.
Qed.

Lemma SFcompare_lt_trans (a b c : spec_float) :
  SFcompare a b = Some Lt -> SFcompare b c = Some Lt -> SFcompare a c = Some Lt.
Proof.
  destruct a as [sa|sa| |sa ma ea], b as [sb|sb| |sb mb eb], c as [sc|sc| |sc mc ec];
    simpl; try discriminate; try (intros; assumption);
    try (destruct sa; try discriminate; destruct sb; try discriminate;
         destruct sc; try discriminate; intros; reflexivity || assumption);
    try (destruct sa, sb; try discriminate; destruct sc; discriminate || reflexivity || (intros; assumption)).
  all: destruct sa, sb, sc; try discriminate; try reflexivity.
  all: destruct (Z.compare_spec ea eb), (Z.compare_spec eb ec), (Z.compare_spec ea ec);
    try discriminate; try lia; try reflexivity.
  all: destruct (compare_cont_spec ma mb), (compare_cont_spec mb mc),
         (compare_cont_spec ma mc);
    simpl; try discriminate; try lia; try reflexivity.
Qed.

Lemma ltb_trans (x y z : float) :
  (x <? y) = true -> (y <? z) = true -> (x <? z) = true.
Proof.
  rewrite !ltb_spec. unfold SFltb.
  destruct (SFcompare (Prim2SF x) (Prim2SF y)) as [[]|] eqn:H1; try discriminate.
  destruct (SFcompare (Prim2SF y) (Prim2SF z)) as [[]|] eqn:H2; try discriminate.
  now rewrite (SFcompare_lt_trans _ _ _ H1 H2).
Qed.

Lemma ltb_asym (x y : float) : (x <? y) = true -> (y <? x) = false.
Proof.
  rewrite !ltb_spec. unfold SFltb.
  rewrite (SFcompare_antisym (Prim2SF x) (Prim2SF y)).
  destruct (SFcompare (Prim2SF x) (Prim2SF y)) as [[]|]; simpl; congruence.
Qed.

Lemma ltb_irrefl (x : float) : (x <? x) = false.
Proof.
  destruct (x <? x) eqn:H; [|reflexivity].
  now rewrite (ltb_asym _ _ H) in H.
Qed.

Lemma ltb_not_leb (x y : float) : (x <? y) = true -> (y <=? x) = false.
Proof.
  rewrite ltb_spec, leb_spec. unfold SFltb, SFleb.
  rewrite (SFcompare_antisym (Prim2SF x) (Prim2SF y)).
  destruct (SFcompare (Prim2SF x) (Prim2SF y)) as [[]|]; simpl; congruence.
Qed.

Lemma is_nan_spec (x : float) : is_nan x = true <-> Prim2SF x = S754_nan.
Proof.
  unfold is_nan. rewrite eqb_spec. unfold SFeqb. split.
  - intros H. destruct (Prim2SF x) eqn:Hx; try reflexivity;
      rewrite SFcompare_refl in H by discriminate; discriminate.
  - intros ->. reflexivity.
Qed.

Lemma SFcompare_total (a b : spec_float) :
  a <> S754_nan -> b <> S754_nan -> SFcompare a b <> None.
Proof.
  destruct a, b; simpl; congruence.
Qed.

(** On numbers, [y <= x] fails exactly when [x < y]. *)
Lemma leb_false_ltb (x y : float) :
  is_nan x = false -> is_nan y = false -> (y <=? x) = false -> (x <? y) = true.
Proof.
  intros Hx Hy. rewrite ltb_spec, leb_spec. unfold SFltb, SFleb.
  rewrite (SFcompare_antisym (Prim2SF x) (Prim2SF y)).
  assert (Hx' : Prim2SF x <> S754_nan)
    by (intro H; apply is_nan_spec in H; congruence).
  assert (Hy' : Prim2SF y <> S754_nan)
    by (intro H; apply is_nan_spec in H; congruence).
  pose proof (SFcompare_total _ _ Hx' Hy') as Ht.
  destruct (SFcompare (Prim2SF x) (Prim2SF y)) as [[]|]; simpl; congruence.
Qed.

Lemma leb_nan_r (x y : float) : is_nan y = true -> (x <=? y) = false.
Proof.
  intros H. apply is_nan_spec in H. rewrite leb_spec. unfold SFleb. rewrite H.
  now destruct (Prim2SF x).
Qed.

End FloatOrder.

(** ** The heap *)

Lemma upd_same (h : Heap) (l : loc) (n : Node.t) : upd h l n l = n.
Proof. unfold upd. now rewrite Nat.eqb_refl. Qed.

Lemma upd_other (h : Heap) (l l' : loc) (n : Node.t) :
  l' <> l -> upd h l n l' = h l'.
Proof.
  intros Hne. unfold upd.
  destruct (Nat.eqb_spec l' l); [contradiction | reflexivity].
Qed.

(** ** The loop of [initializeNodes] *)

Lemma initializeNodes_from_notin cos sin (arr : list loc) :
  forall i h l, ~ In l arr -> initializeNodes_from cos sin i arr h l = h l.
Proof.
  induction arr as [|a arr IH]; intros i h l Hnot; simpl.
  - reflexivity.
  - rewrite IH by (intro Hin; apply Hnot; now right).
    apply upd_other. intro Heq. apply Hnot. now left.
Qed.

(** In an array of pairwise distinct objects, the object at position [k] goes
    through the loop body once, with index [i + k]. *)
Lemma initializeNodes_from_nth cos sin (arr : list loc) :
  forall i h k l,
    NoDup arr -> nth_error arr k = Some l ->
    initializeNodes_from cos sin i arr h l = initializeNode cos sin (i + k) (h l).
Proof.
  induction arr as [|a arr IH]; intros i h k l Hnd Hk.
  - destruct k; discriminate.
  - inversion Hnd as [|? ? Hnotin Hnd']; subst.
    destruct k as [|k]; simpl in *.
    + injection Hk as ->.
      rewrite initializeNodes_from_notin by assumption.
      rewrite upd_same. now rewrite Nat.add_0_r.
    + rewrite (IH (S i) _ k l Hnd' Hk).
      rewrite upd_other.
      * f_equal. lia.
      * intros ->. apply Hnotin. eapply nth_error_In; eassumption.
Qed.

(** ** The inner loop of [tick] *)

(** Every object is integrated once per occurrence in the array. *)
Lemma integrateNodes_count vd (arr : list loc) :
  forall h l,
    integrateNodes vd arr h l
    = Nat.iter (count_occ Nat.eq_dec arr l) (integrate vd) (h l).
Proof.
  induction arr as [|a arr IH]; intros h l; simpl.
  - reflexivity.
  - rewrite IH. destruct (Nat.eq_dec a l) as [->|Hne].
    + rewrite upd_same, <- Nat.iter_succ_r. reflexivity.
    + rewrite upd_other by congruence. reflexivity.
Qed.

Lemma integrate_pinned vd (n : Node.t) : pinned (integrate vd n).
Proof.
  unfold pinned, integrate.
  destruct (Node.fx n) eqn:Hfx, (Node.fy n) eqn:Hfy; simpl;
    split; intros f Hf; try discriminate; injection Hf as ->; auto.
Qed.

Lemma iter_integrate_pinned vd (k : nat) (n : Node.t) :
  pinned (Nat.iter (S k) (integrate vd) n).
Proof. simpl. apply integrate_pinned. Qed.

Lemma integrateNodes_pinned vd (arr : list loc) (h : Heap) (l : loc) :
  In l arr -> pinned (integrateNodes vd arr h l).
Proof.
  intros Hin. rewrite integrateNodes_count.
  destruct (count_occ Nat.eq_dec arr l) as [|k] eqn:Hc.
  - apply (count_occ_In Nat.eq_dec) in Hin. lia.
  - apply iter_integrate_pinned.
Qed.

(** ** The outer loop of [tick] *)

Lemma tick_iteration_nodes {E Rand} (st : State E Rand) :
  _nodes (sim (tick_iteration st)) = _nodes (sim st).
Proof. reflexivity. Qed.

Lemma tick_loop_nodes {E Rand} (k : nat) :
  forall st : State E Rand, _nodes (sim (tick_loop k st)) = _nodes (sim st).
Proof.
  induction k as [|k IH]; intros st; simpl; [reflexivity|].
  now rewrite IH.
Qed.

Lemma tick_loop_succ_r {E Rand} (k : nat) :
  forall st : State E Rand,
    tick_loop (S k) st = tick_iteration (tick_loop k st).
Proof.
  induction k as [|k IH]; intros st.
  - reflexivity.
  - change (tick_loop (S (S k)) st) with (tick_loop (S k) (tick_iteration st)).
    rewrite IH. reflexivity.
Qed.

Lemma tick_iteration_pinned {E Rand} (st : State E Rand) (l : loc) :
  In l (_nodes (sim st)) ->
  pinned (heap (world (tick_iteration st)) l).
Proof.
  intros Hin. unfold tick_iteration. simpl.
  now apply integrateNodes_pinned.
Qed.

(** ** Claims on [tick] *)

(** C2.  At the end of every [tick] call that runs at least one iteration
    ([tick()] included), every object of the node array whose [fx] is defined
    has [x] equal to [fx] and [vx] equal to 0, and likewise for [fy], [y] and
    [vy], whatever the registered forces do. *)
Theorem tick_fixed_nodes {E Rand} (st : State E Rand) (iterations : option nat) (l : loc) :
  iterations <> Some 0%nat ->
  In l (_nodes (sim st)) ->
  let node := heap (world (snd (tick iterations st))) l in
  (forall f, Node.fx node = Num f -> Node.x node = Some f /\ Node.vx node = Some 0)
  /\ (forall f, Node.fy node = Num f -> Node.y node = Some f /\ Node.vy node = Some 0).
Proof.
  intros Hpos Hin. unfold tick. cbn [snd].
  set (n := match iterations with None => 1%nat | Some n => n end).
  assert (Hn : exists k, n = S k).
  { subst n. destruct iterations as [[|k]|]; [congruence | now exists k | now exists 0%nat]. }
  destruct Hn as [k ->].
  rewrite tick_loop_succ_r.
  apply tick_iteration_pinned.
  now rewrite tick_loop_nodes.
Qed.

Lemma tick_fixed_nodes_witness :
  Node.fx (heap (world (snd (tick None Demo.st0))) 0%nat) = Num 7
  /\ Node.x (heap (world (snd (tick None Demo.st0))) 0%nat) = Some 7
  /\ Node.vx (heap (world (snd (tick None Demo.st0))) 0%nat) = Some 0.
Proof.
  split; [reflexivity|].
  apply (proj1 (tick_fixed_nodes Demo.st0 None 0%nat
                  ltac:(discriminate) ltac:(simpl; auto))).
  reflexivity.
Defined.

(** The map keeps insertion order: a new key goes to the end, ... *)
Lemma Map_set_new {V} (m : list (string * V)) (k : string) (v : V) :
  Map_get m k = None -> Map_set m k v = (m ++ [(k, v)])%list.
Proof.
  induction m as [|[k' v'] m IH]; simpl; intros Hget.
  - reflexivity.
  - destruct (String.eqb k' k); [discriminate|].
    now rewrite IH.
Qed.

(** ... and [forEach] reaches the last entry last. *)
Lemma applyForces_app {E Rand} (a : float) (fs gs : list (string * Force E Rand)) (w : World E) :
  applyForces a (fs ++ gs) w = applyForces a gs (applyForces a fs w).
Proof. unfold applyForces, Map_forEach. apply fold_left_app. Qed.

Lemma integrate_free_x vd (n : Node.t) :
  neq_null (Node.fx n) = false ->
  Node.vx (integrate vd n) = Some (ToNumber (Node.vx n) * vd)
  /\ Node.x (integrate vd n) = Some (ToNumber (Node.x n) + ToNumber (Node.vx n) * vd).
Proof.
  unfold integrate. destruct (Node.fx n), (Node.fy n); simpl; intros H;
    try discriminate; split; reflexivity.
Qed.

Lemma integrate_free_y vd (n : Node.t) :
  neq_null (Node.fy n) = false ->
  Node.vy (integrate vd n) = Some (ToNumber (Node.vy n) * vd)
  /\ Node.y (integrate vd n) = Some (ToNumber (Node.y n) + ToNumber (Node.vy n) * vd).
Proof.
  unfold integrate. destruct (Node.fx n), (Node.fy n); simpl; intros H;
    try discriminate; split; reflexivity.
Qed.

(** C3.  One iteration of [tick], in order: alpha becomes
    [alpha + (alphaTarget - alpha) * alphaDecay] and nothing else of the
    simulation changes; the registered forces run with that new alpha in the
    order of the force map, which is insertion order (a force registered
    under a new name runs after all the others); then every object is
    integrated once per occurrence in the node array, and integrating an
    object whose [fx] is null or undefined multiplies [vx] by the stored
    velocity decay and adds the decayed [vx] to [x] (likewise for [y]). *)
Theorem tick_iteration_steps {E Rand} (st : State E Rand) :
  let s := sim st in
  let alpha' := _alpha s + (_alphaTarget s - _alpha s) * _alphaDecay s in
  let w1 := fold_left (fun w kv => apply (snd kv) alpha' w) (forces s) (world st) in
  let st' := snd (tick (Some 1%nat) st) in
  sim st' = set_alpha alpha' s
  /\ ext (world st') = ext w1
  /\ (forall l,
        heap (world st') l
        = Nat.iter (count_occ Nat.eq_dec (_nodes s) l)
                   (integrate (_velocityDecay s)) (heap w1 l))
  /\ (forall name f a w,
        Map_get (forces s) name = None ->
        applyForces a (forces (sim (snd (force name (Some (Some f)) st)))) w
        = apply f a (applyForces a (forces s) w))
  /\ (forall n,
        neq_null (Node.fx n) = false ->
        Node.vx (integrate (_velocityDecay s) n)
        = Some (ToNumber (Node.vx n) * _velocityDecay s)
        /\ Node.x (integrate (_velocityDecay s) n)
           = Some (ToNumber (Node.x n) + ToNumber (Node.vx n) * _velocityDecay s))
  /\ (forall n,
        neq_null (Node.fy n) = false ->
        Node.vy (integrate (_velocityDecay s) n)
        = Some (ToNumber (Node.vy n) * _velocityDecay s)
        /\ Node.y (integrate (_velocityDecay s) n)
           = Some (ToNumber (Node.y n) + ToNumber (Node.vy n) * _velocityDecay s)).
Proof.
  cbv zeta.
  split; [reflexivity|]. split; [reflexivity|].
  split; [intros l; cbn; apply integrateNodes_count|].
  split.
  { intros name f a w Hnew.
    replace (forces (sim (snd (force name (Some (Some f)) st))))
      with (Map_set (forces (sim st)) name f) by reflexivity.
    rewrite (Map_set_new _ _ _ Hnew), applyForces_app. reflexivity. }
  split; intros n Hn; [now apply integrate_free_x | now apply integrate_free_y].
Qed.

(** The two forces of the example ran in the order of their registration,
    and the free object 1 moved by its decayed velocity. *)
Example tick_order_example :
  ext (world (snd (tick None Demo.st0))) = ["init a"; "a"; "b"]%string
  /\ heap (world (snd (tick None Demo.st0))) 1%nat
     = Node.mk (Some 1%nat) (Some 7.1726846651469724) (Some 0)
               (Some 1.1726846651469727) (Some 0) Undefined Undefined.
Proof. split; vm_compute; reflexivity. Qed.

(** C4.  [tick(n)] leaves the simulation (alpha, the other parameters, the
    force map) and every node object in exactly the state that [n] successive
    calls of [tick(1)] leave them in, and [tick()] is [tick(1)]. *)
Theorem tick_n_times {E Rand} (st : State E Rand) (n : nat) :
  tick (Some n) st = (This, Nat.iter n (fun s => snd (tick (Some 1%nat) s)) st)
  /\ tick None st = tick (Some 1%nat) st.
Proof.
  split; [|reflexivity].
  unfold tick. f_equal.
  induction n as [|n IH].
  - reflexivity.
  - rewrite tick_loop_succ_r, IH. reflexivity.
Qed.

(** ** Claims on [find] *)

Section Find.

Variables (x y : float) (h : Heap).

Let d (l : loc) : float := distance2 x y (h l).

(** Once a candidate is held, the scan returns a node. *)
Lemma find_loop_Some (arr : list loc) :
  forall c r, find_loop x y h arr (Some c) r <> None.
Proof.
  induction arr as [|a arr IH]; intros c r; simpl.
  - discriminate.
  - destruct (distance2 x y (h a) <? r); apply IH.
Qed.

Lemma find_loop_None (arr : list loc) :
  forall r,
    find_loop x y h arr None r = None
    <-> (forall l, In l arr -> (d l <? r) = false).
Proof.
  induction arr as [|a arr IH]; intros r; simpl.
  - split; [intros _ l [] | reflexivity].
  - fold (d a). destruct (d a <? r) eqn:Hlt.
    + split.
      * intros Hnone. now apply find_loop_Some in Hnone.
      * intros Hall. rewrite (Hall a) in Hlt by now left. discriminate.
    + rewrite IH. split.
      * intros Hall l [<-|Hin]; auto.
      * intros Hall l Hin. apply Hall. now right.
Qed.

(** The scan returns either the candidate it started with, when no node of
    the array is below the running radius, or a node of the array below the
    radius that no node of the array is strictly closer than. *)
Lemma find_loop_result (arr : list loc) :
  forall c r res,
    find_loop x y h arr c r = Some res ->
    (c = Some res /\ forall l, In l arr -> (d l <? r) = false)
    \/ (In res arr /\ (d res <? r) = true
        /\ forall l, In l arr -> (d l <? d res) = false).
Proof.
  induction arr as [|a arr IH]; intros c r res; simpl.
  - intros ->. left. split; [reflexivity | intros l []].
  - fold (d a). destruct (d a <? r) eqn:Hlt; intros Hres; apply IH in Hres.
    + right. destruct Hres as [[Hc Hall] | (Hin & Hbelow & Hmin)].
      * injection Hc as <-. repeat split; auto.
        intros l [<-|Hl]; [apply FloatOrder.ltb_irrefl | now apply Hall].
      * repeat split; auto.
        -- eapply FloatOrder.ltb_trans; eassumption.
        -- intros l [<-|Hl]; [now apply FloatOrder.ltb_asym | now apply Hmin].
    + destruct Hres as [[Hc Hall] | (Hin & Hbelow & Hmin)].
      * left. split; auto. intros l [<-|Hl]; auto.
      * right. repeat split; auto.
        intros l [<-|Hl]; [|now apply Hmin].
        destruct (d a <? d res) eqn:Hc; [|reflexivity].
        rewrite (FloatOrder.ltb_trans _ _ _ Hc Hbelow) in Hlt. discriminate.
Qed.

End Find.

(** C6, as the code has it.  Let the limit be [Infinity] for [find(x, y)]
    and [r * r] for [find(x, y, r)].  [find] returns [undefined] if and only
    if no node of the array has a squared distance to [(x, y)] strictly below
    the limit; and a node it returns belongs to the array, is strictly below
    the limit, and no node of the array is strictly closer. *)
Theorem find_closest {E Rand} (st : State E Rand) (x y : float) (radius : option float) :
  let limit := match radius with None => infinity | Some r => r * r end in
  let d l := distance2 x y (heap (world st) l) in
  (find x y radius st = None
   <-> forall l, In l (_nodes (sim st)) -> (d l <? limit) = false)
  /\ (forall c,
        find x y radius st = Some c ->
        In c (_nodes (sim st)) /\ (d c <? limit) = true
        /\ forall l, In l (_nodes (sim st)) -> (d l <? d c) = false).
Proof.
  cbv zeta. unfold find. split.
  - apply find_loop_None.
  - intros c Hc. apply find_loop_result in Hc.
    destruct Hc as [[Hc _] | Hc]; [discriminate | exact Hc].
Qed.

(** The scenario of the test suite: nodes at (5, 0), (10, 16), (-10, -4). *)
Example find_scenario :
  find 0 0 None (Demo.sim_of [1; 3; 4]%nat) = Some 1%nat
  /\ find 0 0 (Some 1) (Demo.sim_of [1; 3; 4]%nat) = None
  /\ find 0 20 None (Demo.sim_of [1; 3; 4]%nat) = Some 3%nat.
Proof. repeat split; vm_compute; reflexivity. Qed.

(** C6 fails as stated, on a simulation whose only node is at (5, 0):
    [find(0, 0, -10)] returns the node, although its distance 5 is not within
    -10; [find(0, 0, 5)] returns [undefined], although the node lies at
    distance exactly 5; and with the only node at (1e200, 0), [find(0, 0)]
    returns [undefined] although the array is not empty. *)
Lemma find_counterexample :
  (find 0 0 (Some (-10)) (Demo.sim_of [1%nat]) = Some 1%nat
   /\ (PrimFloat.sqrt (distance2 0 0 (heap (world (Demo.sim_of [1%nat])) 1%nat)) <=? -10) = false)
  /\ (find 0 0 (Some 5) (Demo.sim_of [1%nat]) = None
      /\ (PrimFloat.sqrt (distance2 0 0 (heap (world (Demo.sim_of [1%nat])) 1%nat)) <=? 5) = true)
  /\ (find 0 0 None (Demo.sim_of [5%nat]) = None
      /\ _nodes (sim (Demo.sim_of [5%nat])) = [5%nat]).
Proof. repeat split; vm_compute; reflexivity. Qed.

(** ** Claims on the decorated parameters *)

(** Outside [0, 1]: below 0, above 1, or not a number. *)
Lemma unit_interval_false (v : float) :
  unit_interval v = false
  <-> (v <? 0) = true \/ (1 <? v) = true \/ is_nan v = true.
Proof.
  unfold unit_interval. split.
  - intros H. destruct (is_nan v) eqn:Hnan; [now right; right|].
    apply andb_false_iff in H. destruct H as [H|H].
    + left. now apply FloatOrder.leb_false_ltb.
    + right; left. now apply FloatOrder.leb_false_ltb.
  - intros [H|[H|H]].
    + now rewrite (FloatOrder.ltb_not_leb _ _ H).
    + rewrite (FloatOrder.ltb_not_leb _ _ H). apply andb_false_r.
    + now rewrite (FloatOrder.leb_nan_r 0 v H).
Qed.

(** C7.  Each of the setters [alpha], [alphaMin], [alphaDecay],
    [alphaTarget] and [velocityDecay], called with a value outside [0, 1]
    (below 0, above 1, or NaN), throws and leaves the whole state as it was;
    called with a value of [0, 1] it returns the simulation, having stored
    the value ([1 - value] for [velocityDecay]) and changed nothing else. *)
Theorem scalar_setters_validate {E Rand} (st : State E Rand) (v : float) :
  (unit_interval v = false
   <-> (v <? 0) = true \/ (1 <? v) = true \/ is_nan v = true)
  /\ alpha (Some v) st
     = (if unit_interval v then (This, mkState (set_alpha v (sim st)) (world st))
        else (Thrown (InvalidValue "alpha" v), st))
  /\ alphaMin (Some v) st
     = (if unit_interval v then (This, mkState (set_alphaMin v (sim st)) (world st))
        else (Thrown (InvalidValue "alphaMin" v), st))
  /\ alphaDecay (Some v) st
     = (if unit_interval v then (This, mkState (set_alphaDecay v (sim st)) (world st))
        else (Thrown (InvalidValue "alphaDecay" v), st))
  /\ alphaTarget (Some v) st
     = (if unit_interval v then (This, mkState (set_alphaTarget v (sim st)) (world st))
        else (Thrown (InvalidValue "alphaTarget" v), st))
  /\ velocityDecay (Some v) st
     = (if unit_interval v
        then (This, mkState (set_velocityDecay (1 - v) (sim st)) (world st))
        else (Thrown (InvalidValue "velocityDecay" v), st)).
Proof.
  split; [apply unit_interval_false|].
  unfold alpha, alphaMin, alphaDecay, alphaTarget, velocityDecay, property; cbn.
  destruct (unit_interval v); cbn; repeat split; reflexivity.
Qed.

(** Rejected and accepted calls on the fresh simulation of the examples. *)
Example setters_example :
  alpha (Some 1.5) Demo.fresh = (Thrown (InvalidValue "alpha" 1.5), Demo.fresh)
  /\ alphaTarget (Some (-0.1)) Demo.fresh
     = (Thrown (InvalidValue "alphaTarget" (-0.1)), Demo.fresh)
  /\ alphaMin (Some nan) Demo.fresh = (Thrown (InvalidValue "alphaMin" nan), Demo.fresh)
  /\ fst (alphaDecay (Some 0.5) Demo.fresh) = This
  /\ alphaDecay None (snd (alphaDecay (Some 0.5) Demo.fresh))
     = (Value 0.5, snd (alphaDecay (Some 0.5) Demo.fresh)).
Proof. repeat split; reflexivity. Qed.

(** C8, as the code has it.  For [v] in [0, 1], [velocityDecay(v)] returns
    the simulation and stores [1 - v]; the stored value is what multiplies
    the velocity of a free node during integration; [velocityDecay()] then
    returns [1 - (1 - v)], both subtractions rounded; a fresh simulation
    stores 0.6 and its getter returns 0.4. *)
Theorem velocityDecay_stored {E Rand} (st : State E Rand) (v : float) :
  unit_interval v = true ->
  let st' := snd (velocityDecay (Some v) st) in
  fst (velocityDecay (Some v) st) = This
  /\ _velocityDecay (sim st') = 1 - v
  /\ velocityDecay None st' = (Value (1 - (1 - v)), st')
  /\ (forall n,
        neq_null (Node.fx n) = false ->
        Node.vx (integrate (_velocityDecay (sim st')) n)
        = Some (ToNumber (Node.vx n) * (1 - v)))
  /\ (forall (lcg : Rand) Math_pow (w : World E),
        _velocityDecay (new_Simulation (E := E) lcg Math_pow) = 0.6
        /\ fst (velocityDecay None (mkState (new_Simulation lcg Math_pow) w)) = Value 0.4).
Proof.
  intros Hv. cbv zeta.
  unfold velocityDecay, property. cbn. rewrite Hv. cbn.
  repeat split.
  intros n Hn. now apply integrate_free_x.
Qed.

Lemma velocityDecay_stored_witness :
  unit_interval 0.4 = true
  /\ _velocityDecay (sim (snd (velocityDecay (Some 0.4) Demo.st0))) = 0.6
  /\ fst (velocityDecay None (snd (velocityDecay (Some 0.4) Demo.st0))) = Value 0.4.
Proof.
  split; [reflexivity|].
  destruct (velocityDecay_stored Demo.st0 0.4 eq_refl) as (_ & Hs & Hg & _).
  split; [exact Hs | now rewrite Hg].
Defined.

(** C8 fails as stated: 0.1 is in [0, 1], yet after [velocityDecay(0.1)]
    the getter returns 0.09999999999999998. *)
Lemma velocityDecay_counterexample :
  unit_interval 0.1 = true
  /\ fst (velocityDecay (Some 0.1) Demo.fresh) = This
  /\ fst (velocityDecay None (snd (velocityDecay (Some 0.1) Demo.fresh)))
     = Value 0.09999999999999998
  /\ (0.09999999999999998 =? 0.1) = false.
Proof. repeat split; reflexivity. Qed.

(** ** Claims on the force map *)

Section MapLemmas.

Context {V : Type}.

Lemma Map_get_set_same (m : list (string * V)) (k : string) (v : V) :
  Map_get (Map_set m k v) k = Some v.
Proof.
  induction m as [|[k' v'] m IH]; simpl.
  - now rewrite String.eqb_refl.
  - destruct (String.eqb k' k) eqn:Hk; simpl.
    + now rewrite String.eqb_refl.
    + now rewrite Hk.
Qed.

Lemma Map_get_set_other (m : list (string * V)) (k k0 : string) (v : V) :
  k0 <> k -> Map_get (Map_set m k v) k0 = Map_get m k0.
Proof.
  intros Hne. induction m as [|[k' v'] m IH]; simpl.
  - destruct (String.eqb_spec k k0); [congruence | reflexivity].
  - destruct (String.eqb_spec k' k) as [->|Hk]; simpl.
    + destruct (String.eqb_spec k k0); [congruence | reflexivity].
    + now rewrite IH.
Qed.

Lemma Map_get_delete_same (m : list (string * V)) (k : string) :
  Map_get (Map_delete m k) k = None.
Proof.
  unfold Map_delete. induction m as [|[k' v'] m IH]; simpl.
  - reflexivity.
  - destruct (String.eqb k' k) eqn:Hk; simpl; [exact IH | now rewrite Hk].
Qed.

Lemma Map_get_delete_other (m : list (string * V)) (k k0 : string) :
  k0 <> k -> Map_get (Map_delete m k) k0 = Map_get m k0.
Proof.
  intros Hne. unfold Map_delete. induction m as [|[k' v'] m IH]; simpl.
  - reflexivity.
  - destruct (String.eqb_spec k' k) as [->|Hk]; simpl.
    + destruct (String.eqb_spec k k0); [congruence | exact IH].
    + now rewrite IH.
Qed.

End MapLemmas.

(** C9.  [force(name)] returns the force registered under [name], or
    [undefined] when there is none, without throwing and without changing
    anything.  [force(name, null)] returns the simulation, leaves the node
    objects and the other entries alone, and afterwards no force is
    registered under [name].  [force(name, f)] returns the simulation, has
    run [f.initialize] (when [f] has one) once on the current node array and
    random source, and afterwards [f] is the force registered under [name],
    the other entries being what they were. *)
Theorem force_registry {E Rand} (st : State E Rand) (name : string) :
  force name None st = (Value (Map_get (forces (sim st)) name), st)
  /\ (let st' := snd (force name (Some None) st) in
      fst (force name (Some None) st) = This
      /\ world st' = world st
      /\ force name None st' = (Value None, st')
      /\ forall k, k <> name ->
                   Map_get (forces (sim st')) k = Map_get (forces (sim st)) k)
  /\ (forall f : Force E Rand,
        let st' := snd (force name (Some (Some f)) st) in
        fst (force name (Some (Some f)) st) = This
        /\ world st'
           = match initialize f with
             | Some init => init (_nodes (sim st)) (_randomSource (sim st)) (world st)
             | None => world st
             end
        /\ force name None st' = (Value (Some f), st')
        /\ forall k, k <> name ->
                     Map_get (forces (sim st')) k = Map_get (forces (sim st)) k).
Proof.
  split; [reflexivity|]. split.
  - cbv zeta. unfold force; cbn.
    rewrite Map_get_delete_same.
    repeat split. intros k Hk. now apply Map_get_delete_other.
  - intros f. cbv zeta. unfold force; cbn.
    rewrite Map_get_set_same.
    repeat split. intros k Hk. now apply Map_get_set_other.
Qed.

(** Registering logs the call of [initialize]; a force without [initialize]
    is registered silently; removing and looking up behave as stated. *)
Example force_example :
  ext (world Demo.st0) = ["init a"]%string
  /\ map fst (forces (sim Demo.st0)) = ["a"; "b"]%string
  /\ fst (force "c" None Demo.st0) = Value None
  /\ map fst (forces (sim (snd (force "a" (Some None) Demo.st0)))) = ["b"]%string
  /\ map fst (forces (sim (snd (force "a" (Some (Some (Demo.quiet "a2"))) Demo.st0))))
     = ["a"; "b"]%string.
Proof. repeat split; reflexivity. Qed.

(** ** Claims on [nodes] *)

(** [nodes(arr)]: the array is stored as it is, the nodes are initialised,
    then every registered force is initialised, in the map's order. *)
Lemma nodes_set {E Rand} cos sin (st : State E Rand) (arr : list loc) :
  nodes cos sin (Some arr) st
  = (This,
     let st1 := initializeNodes cos sin (mkState (set_nodes arr (sim st)) (world st)) in
     mkState (sim st1)
             (Map_forEach (forces (sim st1)) (initializeForce (sim st1)) (world st1))).
Proof. reflexivity. Qed.

Lemma initializeForce_keeps_heap {E Rand} (s : Simulation E Rand)
      (fs : list (string * Force E Rand)) :
  Forall (fun kv => keeps_nodes (snd kv)) fs ->
  forall w l, heap (Map_forEach fs (initializeForce s) w) l = heap w l.
Proof.
  unfold Map_forEach. induction 1 as [|[k f] fs Hf _ IH]; intros w l; simpl.
  - reflexivity.
  - rewrite IH. unfold initializeForce, keeps_nodes in *. simpl in Hf.
    destruct (initialize f); [apply Hf | reflexivity].
Qed.

(** After [nodes(arr)] on pairwise distinct objects, with forces that keep
    the nodes, the object at position [i] is the loop body's result. *)
Lemma nodes_heap_nth {E Rand} cos sin (st : State E Rand) (arr : list loc) (i : nat) (l : loc) :
  NoDup arr ->
  nth_error arr i = Some l ->
  Forall (fun kv => keeps_nodes (snd kv)) (forces (sim st)) ->
  heap (world (snd (nodes cos sin (Some arr) st))) l
  = initializeNode cos sin i (heap (world st) l).
Proof.
  intros Hnd Hi Hfs. rewrite nodes_set. cbn [snd]. cbv zeta. cbn [world].
  rewrite initializeForce_keeps_heap by exact Hfs.
  cbn. now rewrite (initializeNodes_from_nth cos sin arr 0 _ i l Hnd Hi).
Qed.

(** The position and velocity tests of the loop body. *)
Lemma initializeNode_fields cos sin (i : nat) (n : Node.t) :
  let x0 := match Node.fx n with Num v => Some v | _ => Node.x n end in
  let y0 := match Node.fy n with Num v => Some v | _ => Node.y n end in
  let radius := initialRadius * PrimFloat.sqrt (0.5 + number_of_nat i) in
  let angle := number_of_nat i * initialAngle in
  let n' := initializeNode cos sin i n in
  Node.index n' = Some i
  /\ Node.fx n' = Node.fx n /\ Node.fy n' = Node.fy n
  /\ (Node.x n', Node.y n')
     = (if isNaN x0 || isNaN y0
        then (Some (radius * cos angle), Some (radius * sin angle))
        else (x0, y0))
  /\ (Node.vx n', Node.vy n')
     = (if isNaN (Node.vx n) || isNaN (Node.vy n) then (Some 0, Some 0)
        else (Node.vx n, Node.vy n)).
Proof.
  cbv zeta. unfold initializeNode.
  destruct (isNaN _ || isNaN _), (isNaN (Node.vx n) || isNaN (Node.vy n));
    repeat split; reflexivity.
Qed.






(** The seeding angles of indices 0, 1 and 2. *)
Lemma seeding_angles :
  number_of_nat 0 * initialAngle = 0
  /\ number_of_nat 1 * initialAngle = 2.399963229728653
  /\ number_of_nat 2 * initialAngle = 4.799926459457306.
Proof. repeat split; reflexivity. Qed.

(** C5.  [nodes([a, b, c])] on a fresh simulation, with three distinct empty
    objects, gives the node of index [i] the position
    [(10 * sqrt(0.5 + i) * cos(i * PI * (3 - sqrt 5)),
      10 * sqrt(0.5 + i) * sin(i * PI * (3 - sqrt 5)))] and zero velocity.
    On a platform where [cos 0 = 1], [sin 0 = 0], and the cosine and sine of
    the angles of indices 1 and 2 are within one unit in the last place of
    their correctly rounded values, [a] is exactly
    [{index: 0, x: 7.0710678118654755, y: 0, vx: 0, vy: 0}], and [b] and [c]
    have indices 1 and 2, zero velocity, and coordinates that agree with
    (-9.03088751750192, 8.27303273571596) and
    (1.3823220809823638, -15.750847141167634) within 1e-12. *)
Theorem phyllotaxis_seeding {E Rand} (lcg : Rand) cos sin pow (w : World E) (a b c : loc) :
  a <> b -> a <> c -> b <> c ->
  heap w a = Node.empty -> heap w b = Node.empty -> heap w c = Node.empty ->
  cos 0 = 1 -> sin 0 = 0 ->
  within_one_ulp (cos 2.399963229728653) (-0.7373688780783197) ->
  within_one_ulp (sin 2.399963229728653) 0.6754902942615238 ->
  within_one_ulp (cos 4.799926459457306) 0.08742572471695988 ->
  within_one_ulp (sin 4.799926459457306) (-0.9961710408648278) ->
  let fresh := snd (forceSimulation lcg cos sin pow None w) in
  let st := snd (nodes cos sin (Some [a; b; c]) fresh) in
  (forall i l,
      nth_error [a; b; c] i = Some l ->
      heap (world st) l
      = Node.mk (Some i)
                (Some (10 * PrimFloat.sqrt (0.5 + number_of_nat i)
                       * cos (number_of_nat i * (Math_PI * (3 - PrimFloat.sqrt 5)))))
                (Some (10 * PrimFloat.sqrt (0.5 + number_of_nat i)
                       * sin (number_of_nat i * (Math_PI * (3 - PrimFloat.sqrt 5)))))
                (Some 0) (Some 0) Undefined Undefined)
  /\ heap (world st) a
     = Node.mk (Some 0%nat) (Some 7.0710678118654755) (Some 0) (Some 0) (Some 0)
               Undefined Undefined
  /\ (exists xb yb,
        heap (world st) b
        = Node.mk (Some 1%nat) (Some xb) (Some yb) (Some 0) (Some 0) Undefined Undefined
        /\ approx xb (-9.03088751750192) = true
        /\ approx yb 8.27303273571596 = true)
  /\ (exists xc yc,
        heap (world st) c
        = Node.mk (Some 2%nat) (Some xc) (Some yc) (Some 0) (Some 0) Undefined Undefined
        /\ approx xc 1.3823220809823638 = true
        /\ approx yc (-15.750847141167634) = true).
Proof.
  intros Hab Hac Hbc Ha Hb Hc Hc0 Hs0 Hc1 Hs1 Hc2 Hs2. cbv zeta.
  assert (Hnd : NoDup [a; b; c]).
  { repeat constructor; simpl; intuition congruence. }
  assert (Hformula : forall i l,
             nth_error [a; b; c] i = Some l ->
             heap (world (snd (nodes cos sin (Some [a; b; c])
                                     (snd (forceSimulation lcg cos sin pow None w))))) l
             = initializeNode cos sin i Node.empty).
  { intros i l Hi.
    rewrite (nodes_heap_nth cos sin _ [a; b; c] i l Hnd Hi) by constructor.
    cbn [forceSimulation nodes snd world heap].
    destruct i as [|[|[|i]]]; simpl in Hi; try (destruct i; discriminate);
      injection Hi as <-; cbn; now rewrite ?Ha, ?Hb, ?Hc. }
  split; [|split; [|split]].
  - intros i l Hi. rewrite (Hformula i l Hi). reflexivity.
  - rewrite (Hformula 0%nat a eq_refl). unfold initializeNode. cbn.
    rewrite Hc0, Hs0. reflexivity.
  - rewrite (Hformula 1%nat b eq_refl). unfold initializeNode. cbn.
    do 2 eexists. split; [reflexivity|].
    destruct Hc1 as [->|[->| ->]], Hs1 as [->|[->| ->]]; split; reflexivity.
  - rewrite (Hformula 2%nat c eq_refl). unfold initializeNode. cbn.
    do 2 eexists. split; [reflexivity|].
    destruct Hc2 as [->|[->| ->]], Hs2 as [->|[->| ->]]; split; reflexivity.
Qed.

(** On the platform of the examples, whose cosine and sine are correctly
    rounded, three empty objects are seeded as the scenario says. *)
Lemma phyllotaxis_seeding_witness :
  heap (world (snd (nodes Demo.Math_cos Demo.Math_sin (Some [10; 11; 12]%nat)
                          (snd (forceSimulation Demo.lcg Demo.Math_cos Demo.Math_sin
                                                Demo.Math_pow None Demo.world0)))))
       10%nat
  = Node.mk (Some 0%nat) (Some 7.0710678118654755) (Some 0) (Some 0) (Some 0)
            Undefined Undefined.
Proof.
  apply (phyllotaxis_seeding Demo.lcg Demo.Math_cos Demo.Math_sin Demo.Math_pow
           Demo.world0 10%nat 11%nat 12%nat
           ltac:(discriminate) ltac:(discriminate) ltac:(discriminate)
           eq_refl eq_refl eq_refl eq_refl eq_refl
           (or_intror (or_introl eq_refl)) (or_intror (or_introl eq_refl))
           (or_intror (or_introl eq_refl)) (or_intror (or_introl eq_refl))).
Defined.

(** With correctly rounded cosine and sine, five of the six seeded
    coordinates are the literals of the scenario; [b.y] is
    8.273032735715967. *)
Example phyllotaxis_seeding_values :
  let st := snd (nodes Demo.Math_cos Demo.Math_sin (Some [10; 11; 12]%nat) Demo.fresh) in
  heap (world st) 11%nat
  = Node.mk (Some 1%nat) (Some (-9.03088751750192)) (Some 8.273032735715967)
            (Some 0) (Some 0) Undefined Undefined
  /\ heap (world st) 12%nat
     = Node.mk (Some 2%nat) (Some 1.3823220809823638) (Some (-15.750847141167634))
               (Some 0) (Some 0) Undefined Undefined.
Proof. split; reflexivity. Qed.

(** * Further properties of the driver *)

(** ** The force map under [force] *)

Section MapOrder.

Context {V : Type}.

Lemma Map_get_None (m : list (string * V)) (k : string) :
  Map_get m k = None <-> ~ In k (map fst m).
Proof.
  induction m as [|[k' v'] m IH]; simpl.
  - tauto.
  - destruct (String.eqb_spec k' k) as [->|Hne].
    + split; [discriminate | intros H; exfalso; apply H; now left].
    + rewrite IH. tauto.
Qed.

Lemma Map_set_keys_present (m : list (string * V)) (k : string) (v : V) :
  In k (map fst m) -> map fst (Map_set m k v) = map fst m.
Proof.
  induction m as [|[k' v'] m IH]; simpl; intros Hin.
  - contradiction.
  - destruct (String.eqb_spec k' k) as [->|Hne]; simpl.
    + reflexivity.
    + f_equal. apply IH. destruct Hin; [contradiction | assumption].
Qed.

Lemma Map_set_keys_new (m : list (string * V)) (k : string) (v : V) :
  ~ In k (map fst m) -> map fst (Map_set m k v) = (map fst m ++ [k])%list.
Proof.
  intros Hnew. apply Map_get_None in Hnew.
  rewrite (Map_set_new m k v Hnew), map_app. reflexivity.
Qed.

Lemma Map_delete_keys (m : list (string * V)) (k : string) :
  map fst (Map_delete m k) = filter (fun k' => negb (String.eqb k' k)) (map fst m).
Proof.
  unfold Map_delete. induction m as [|[k' v'] m IH]; simpl.
  - reflexivity.
  - destruct (String.eqb k' k); simpl; now rewrite IH.
Qed.

Lemma Map_delete_absent (m : list (string * V)) (k : string) :
  Map_get m k = None -> Map_delete m k = m.
Proof.
  unfold Map_delete. induction m as [|[k' v'] m IH]; simpl; intros Hget.
  - reflexivity.
  - destruct (String.eqb k' k); [discriminate|]. simpl. now rewrite IH.
Qed.

Lemma Map_set_NoDup (m : list (string * V)) (k : string) (v : V) :
  NoDup (map fst m) -> NoDup (map fst (Map_set m k v)).
Proof.
  intros Hnd. destruct (in_dec string_dec k (map fst m)) as [Hin|Hnew].
  - now rewrite Map_set_keys_present.
  - rewrite Map_set_keys_new by assumption.
    apply NoDup_app; [assumption | repeat constructor; intros [] |].
    intros a Ha [<-|[]]. contradiction.
Qed.

Lemma Map_delete_NoDup (m : list (string * V)) (k : string) :
  NoDup (map fst m) -> NoDup (map fst (Map_delete m k)).
Proof.
  intros Hnd. rewrite Map_delete_keys. now apply NoDup_filter.
Qed.

Lemma Map_delete_set_new (m : list (string * V)) (k : string) (v : V) :
  Map_get m k = None -> Map_delete (Map_set m k v) k = m.
Proof.
  intros Hnew. rewrite (Map_set_new m k v Hnew).
  unfold Map_delete. rewrite filter_app. simpl. rewrite String.eqb_refl. simpl.
  rewrite app_nil_r. now apply Map_delete_absent.
Qed.

End MapOrder.

Lemma set_forces_same {E Rand} (s : Simulation E Rand) : set_forces (forces s) s = s.
Proof. now destruct s. Qed.

(** X1.  The names of the force map stay pairwise distinct under every call
    of [force], whatever its arguments. *)
Theorem force_names_distinct {E Rand} (st : State E Rand) (name : string)
        (arg : option (option (Force E Rand))) :
  NoDup (map fst (forces (sim st))) ->
  NoDup (map fst (forces (sim (snd (force name arg st))))).
Proof.
  intros Hnd. destruct arg as [[f|]|]; cbn.
  - now apply Map_set_NoDup.
  - now apply Map_delete_NoDup.
  - assumption.
Qed.

Lemma force_names_distinct_witness :
  NoDup (map fst (forces (sim (snd (force "b" (Some (Some (Demo.push "b2" 1))) Demo.st0))))).
Proof.
  apply (force_names_distinct Demo.st0 "b" (Some (Some (Demo.push "b2" 1)))).
  repeat constructor; simpl; intuition discriminate.
Defined.

(** X2.  Registering a force under a name that is already registered
    replaces the old force in place: the names keep their order, so the
    forces keep their turn in [tick]; the names other than [name] keep their
    forces. *)
Theorem force_replace_keeps_order {E Rand} (st : State E Rand) (name : string)
        (f : Force E Rand) :
  In name (map fst (forces (sim st))) ->
  let st' := snd (force name (Some (Some f)) st) in
  map fst (forces (sim st')) = map fst (forces (sim st))
  /\ Map_get (forces (sim st')) name = Some f
  /\ forall k, k <> name -> Map_get (forces (sim st')) k = Map_get (forces (sim st)) k.
Proof.
  intros Hin. cbv zeta. cbn. split; [now apply Map_set_keys_present|].
  split; [apply Map_get_set_same | intros k Hk; now apply Map_get_set_other].
Qed.

Lemma force_replace_keeps_order_witness :
  map fst (forces (sim (snd (force "a" (Some (Some (Demo.quiet "q"))) Demo.st0))))
  = ["a"; "b"]%string.
Proof.
  apply (proj1 (force_replace_keeps_order Demo.st0 "a" (Demo.quiet "q")
                  ltac:(simpl; auto))).
Defined.

(** X3.  Removing a name that is not registered changes nothing at all; and
    registering a force under a new name and then removing it gives the
    force map back as it was (the node objects and the forces' own state keep
    what [initialize] did to them). *)
Theorem force_remove_absent {E Rand} (st : State E Rand) (name : string) :
  Map_get (forces (sim st)) name = None ->
  force name (Some None) st = (This, st)
  /\ forall f : Force E Rand,
      forces (sim (snd (force name (Some None) (snd (force name (Some (Some f)) st)))))
      = forces (sim st).
Proof.
  intros Hnone. split.
  - unfold force. rewrite (Map_delete_absent _ _ Hnone), set_forces_same.
    now destruct st.
  - intros f. cbn. now apply Map_delete_set_new.
Qed.

Lemma force_remove_absent_witness :
  force "zz" (Some None) Demo.st0 = (This, Demo.st0).
Proof.
  apply (proj1 (force_remove_absent Demo.st0 "zz" eq_refl)).
Defined.

(** ** The decorator [property] *)

Arguments property {E Rand T} options key arg st.
Arguments validator {E Rand T} p.
Arguments transform {E Rand T} p.
Arguments onSet {E Rand T} p.
Arguments onGet {E Rand T} p.
Arguments key_get {E Rand T} p s.
Arguments key_set {E Rand T} p v s.
Arguments key_name {E Rand T} p.

(** X4.  What a decorated field reads back.  Take any options and any
    private key that returns what was last stored in it, with an [onSet] hook
    that leaves this key alone and no [onGet] hook.  After a call of the setter
    with a value the validator accepts, the getter returns the value
    transformed twice (the value itself without a transform), and the getter
    changes nothing. *)
Theorem property_read_back {E Rand T} (options : PropertyOptions E Rand T)
        (key : PrivateKey E Rand T) (v : T) (st : State E Rand) :
  match validator options with Some ok => ok v = true | None => True end ->
  (forall x s, key_get key (key_set key x s) = x) ->
  match onSet options with
  | Some g => forall o n st0, key_get key (sim (g o n st0)) = key_get key (sim st0)
  | None => True
  end ->
  onGet options = None ->
  let twice x :=
    match transform options with Some f => f (f x) | None => x end in
  let st' := snd (property options key (Some v) st) in
  fst (property options key (Some v) st) = This
  /\ property options key None st' = (Value (twice v), st').
Proof.
  intros Hok Hlens Hset Hget. cbv zeta. unfold property. rewrite Hget.
  destruct (validator options) as [ok|]; [rewrite Hok|]; cbn [negb fst snd];
    (split; [reflexivity|]);
    destruct (onSet options) as [g|], (transform options) as [f|];
    cbn [sim]; rewrite ?Hset; cbn [sim]; rewrite ?Hlens; reflexivity.
Qed.

(** [velocityDecay(0.25)] reads back [1 - (1 - 0.25)], which is 0.25. *)
Lemma property_read_back_witness :
  fst (velocityDecay None (snd (velocityDecay (Some 0.25) Demo.st0))) = Value 0.25.
Proof.
  pose proof (property_read_back
                (mkOptions Demo.E Demo.Rand PrimFloat.float None None
                           (Some unit_interval) (Some (fun value => 1 - value)))
                (key_velocityDecay Demo.E Demo.Rand) 0.25 Demo.st0
                eq_refl (fun _ _ => eq_refl) I eq_refl) as H.
  cbv zeta in H. destruct H as [_ H].
  unfold velocityDecay. now rewrite H.
Defined.

(** X5.  For [alpha], [alphaMin], [alphaDecay] and [alphaTarget], a value of
    [0, 1] that was set is read back exactly; [nodes()] returns the very
    array given to [nodes(arr)], and [randomSource()] the source given to
    [randomSource(r)], which no value makes throw. *)
Theorem setters_read_back {E Rand} cos sin (st : State E Rand) (v : float)
        (arr : list loc) (r : Rand) :
  unit_interval v = true ->
  fst (alpha None (snd (alpha (Some v) st))) = Value v
  /\ fst (alphaMin None (snd (alphaMin (Some v) st))) = Value v
  /\ fst (alphaDecay None (snd (alphaDecay (Some v) st))) = Value v
  /\ fst (alphaTarget None (snd (alphaTarget (Some v) st))) = Value v
  /\ fst (nodes cos sin None (snd (nodes cos sin (Some arr) st))) = Value arr
  /\ fst (randomSource (Some r) st) = This
  /\ fst (randomSource None (snd (randomSource (Some r) st))) = Value r.
Proof.
  intros Hv.
  unfold alpha, alphaMin, alphaDecay, alphaTarget, nodes, randomSource, property.
  cbn. rewrite Hv. cbn. repeat split.
Qed.

Lemma setters_read_back_witness :
  fst (alphaTarget None (snd (alphaTarget (Some 0.1) Demo.st0))) = Value 0.1.
Proof.
  apply (setters_read_back Demo.Math_cos Demo.Math_sin Demo.st0 0.1 [] Demo.lcg eq_refl).
Defined.

(** ** More on [nodes] *)

Lemma initializeNodes_from_app cos sin (xs ys : list loc) :
  forall i h,
    initializeNodes_from cos sin i (xs ++ ys) h
    = initializeNodes_from cos sin (i + List.length xs) ys (initializeNodes_from cos sin i xs h).
Proof.
  induction xs as [|a xs IH]; intros i h; simpl.
  - now rewrite Nat.add_0_r.
  - rewrite IH. f_equal. lia.
Qed.

(** A property of one object that the loop body keeps is kept by the loop. *)
Lemma initializeNodes_from_inv cos sin (P : Node.t -> Prop) :
  (forall i n, P n -> P (initializeNode cos sin i n)) ->
  forall arr i h l, P (h l) -> P (initializeNodes_from cos sin i arr h l).
Proof.
  intros Hstep. induction arr as [|a arr IH]; intros i h l HP; simpl.
  - exact HP.
  - apply IH. unfold upd. destruct (Nat.eqb_spec l a) as [->|Hne]; auto.
Qed.

Lemma nodes_heap {E Rand} cos sin (st : State E Rand) (arr : list loc) (l : loc) :
  Forall (fun kv => keeps_nodes (snd kv)) (forces (sim st)) ->
  heap (world (snd (nodes cos sin (Some arr) st))) l
  = initializeNodes_from cos sin 0 arr (heap (world st)) l.
Proof.
  intros Hfs. rewrite nodes_set. cbn [snd]. cbv zeta. cbn [world].
  now rewrite initializeForce_keeps_heap by exact Hfs.
Qed.

(** X6.  When the same object occurs several times in the array given to
    [nodes], its index is the position of its last occurrence. *)
Theorem nodes_index_last_occurrence {E Rand} cos sin (st : State E Rand)
        (pre post : list loc) (l : loc) :
  ~ In l post ->
  Forall (fun kv => keeps_nodes (snd kv)) (forces (sim st)) ->
  Node.index (heap (world (snd (nodes cos sin (Some (pre ++ l :: post)) st))) l)
  = Some (List.length pre).
Proof.
  intros Hlast Hfs. rewrite nodes_heap by exact Hfs.
  rewrite initializeNodes_from_app. simpl.
  rewrite initializeNodes_from_notin by exact Hlast.
  rewrite upd_same.
  now destruct (initializeNode_fields cos sin (List.length pre)
                  (initializeNodes_from cos sin 0 pre (heap (world st)) l)) as [-> _].
Qed.

Lemma nodes_index_last_occurrence_witness :
  Node.index (heap (world (snd (nodes Demo.Math_cos Demo.Math_sin
                                      (Some [1; 3; 1; 4]%nat) Demo.st0))) 1%nat)
  = Some 2%nat.
Proof.
  apply (nodes_index_last_occurrence Demo.Math_cos Demo.Math_sin Demo.st0
           [1; 3]%nat [4%nat] 1%nat
           ltac:(simpl; intuition discriminate)
           ltac:(repeat constructor; simpl; reflexivity)).
Defined.

(** X7.  [nodes(arr)] writes to the objects of [arr] only, and never to
    [fx] or [fy]: an object that is not in the array is left as it was, and
    every object keeps its [fx] and [fy] (the registered forces keeping the
    nodes when they are initialised).  In particular [nodes([])] changes no
    object. *)
Theorem nodes_frame {E Rand} cos sin (st : State E Rand) (arr : list loc) :
  Forall (fun kv => keeps_nodes (snd kv)) (forces (sim st)) ->
  let h' := heap (world (snd (nodes cos sin (Some arr) st))) in
  (forall l, ~ In l arr -> h' l = heap (world st) l)
  /\ (forall l, Node.fx (h' l) = Node.fx (heap (world st) l)
                /\ Node.fy (h' l) = Node.fy (heap (world st) l)).
Proof.
  intros Hfs. cbv zeta. split; intros l.
  - intros Hout. rewrite nodes_heap by exact Hfs.
    now apply initializeNodes_from_notin.
  - rewrite nodes_heap by exact Hfs.
    apply (initializeNodes_from_inv cos sin
             (fun n => Node.fx n = Node.fx (heap (world st) l)
                       /\ Node.fy n = Node.fy (heap (world st) l))).
    + intros i n [Hx Hy].
      destruct (initializeNode_fields cos sin i n) as (_ & Hfx & Hfy & _).
      now rewrite Hfx, Hfy.
    + now split.
Qed.

Lemma nodes_frame_witness :
  heap (world (snd (nodes Demo.Math_cos Demo.Math_sin (Some [1; 3]%nat) Demo.st0))) 0%nat
  = heap (world Demo.st0) 0%nat.
Proof.
  apply (proj1 (nodes_frame Demo.Math_cos Demo.Math_sin Demo.st0 [1; 3]%nat
                  ltac:(repeat constructor; simpl; reflexivity))).
  simpl. intuition discriminate.
Defined.

Lemma initializeNode_settled cos sin (i : nat) (n : Node.t) :
  settled n ->
  initializeNode cos sin i n
  = Node.mk (Some i) (Node.x n) (Node.y n) (Node.vx n) (Node.vy n) (Node.fx n) (Node.fy n).
Proof.
  intros (Hfx & Hfy & Hx & Hy & Hvx & Hvy). unfold initializeNode.
  destruct (Node.fx n); try discriminate; destruct (Node.fy n); try discriminate;
    now rewrite Hx, Hy, Hvx, Hvy.
Qed.

(** X8.  Registering nodes again keeps the layout: an object that has a
    position and a velocity without NaN and no [fx] or [fy] keeps its [x],
    [y], [vx] and [vy] through [nodes(arr)], wherever and however often it
    occurs in [arr]; only its index can change. *)
Theorem nodes_keeps_settled {E Rand} cos sin (st : State E Rand) (arr : list loc) (l : loc) :
  Forall (fun kv => keeps_nodes (snd kv)) (forces (sim st)) ->
  settled (heap (world st) l) ->
  let n := heap (world st) l in
  let n' := heap (world (snd (nodes cos sin (Some arr) st))) l in
  Node.x n' = Node.x n /\ Node.y n' = Node.y n
  /\ Node.vx n' = Node.vx n /\ Node.vy n' = Node.vy n
  /\ settled n'.
Proof.
  intros Hfs Hs. cbv zeta. rewrite nodes_heap by exact Hfs.
  set (n := heap (world st) l) in *.
  apply (initializeNodes_from_inv cos sin
           (fun m => Node.x m = Node.x n /\ Node.y m = Node.y n
                     /\ Node.vx m = Node.vx n /\ Node.vy m = Node.vy n
                     /\ settled m)).
  - intros i m (Hx & Hy & Hvx & Hvy & Hm).
    rewrite (initializeNode_settled cos sin i m Hm). cbn.
    repeat split; try assumption; apply Hm.
  - repeat split; apply Hs.
Qed.

(** In the simulation of the examples, object 1 was given zero velocity by
    the first [nodes]; registering it again at another position keeps its
    place. *)
Lemma nodes_keeps_settled_witness :
  Node.x (heap (world (snd (nodes Demo.Math_cos Demo.Math_sin
                                  (Some [3; 4; 1; 1]%nat) Demo.st0))) 1%nat)
  = Some 5.
Proof.
  apply (proj1 (nodes_keeps_settled Demo.Math_cos Demo.Math_sin Demo.st0
                  [3; 4; 1; 1]%nat 1%nat
                  ltac:(repeat constructor; simpl; reflexivity)
                  ltac:(repeat split; reflexivity))).
Defined.

Lemma Node_eq (a b : Node.t) :
  Node.index a = Node.index b ->
  (Node.x a, Node.y a) = (Node.x b, Node.y b) ->
  (Node.vx a, Node.vy a) = (Node.vx b, Node.vy b) ->
  Node.fx a = Node.fx b -> Node.fy a = Node.fy b ->
  a = b.
Proof. destruct a, b; simpl; congruence. Qed.

Lemma initializeNode_idem cos sin (i : nat) (n : Node.t) :
  neq_null (Node.fx n) = neq_null (Node.fy n) ->
  initializeNode cos sin i (initializeNode cos sin i n) = initializeNode cos sin i n.
Proof.
  intros Hsame.
  destruct (initializeNode_fields cos sin i n) as (Hi & Hfx & Hfy & Hxy & Hv).
  destruct (initializeNode_fields cos sin i (initializeNode cos sin i n))
    as (Hi2 & Hfx2 & Hfy2 & Hxy2 & Hv2).
  set (n1 := initializeNode cos sin i n) in *.
  set (n2 := initializeNode cos sin i n1) in *.
  apply Node_eq; try congruence.
  - (* position *)
    rewrite Hxy2, Hfx, Hfy. clear Hxy2.
    destruct (Node.fx n) as [| |fx], (Node.fy n) as [| |fy]; try discriminate;
      try (now rewrite Hxy);
      (destruct (isNaN (Node.x n) || isNaN (Node.y n)) eqn:Hc;
       injection Hxy as Hx Hy; rewrite Hx, Hy;
       [ match goal with |- (if ?c then _ else _) = _ => destruct c end; reflexivity
       | now rewrite Hc ]).
  - (* velocity *)
    rewrite Hv2.
    destruct (isNaN (Node.vx n) || isNaN (Node.vy n)) eqn:Hc;
      injection Hv as -> ->; [reflexivity | now rewrite Hc].
Qed.

(** X9.  On pairwise distinct objects, calling [nodes(arr)] a second time
    changes nothing for an object whose [fx] and [fy] are both present or
    both absent.  (An object with only one of them can move: the first call
    seeds both coordinates, the second copies the fixed one.) *)
Theorem nodes_twice {E Rand} cos sin (st : State E Rand) (arr : list loc) (i : nat) (l : loc) :
  NoDup arr ->
  nth_error arr i = Some l ->
  Forall (fun kv => keeps_nodes (snd kv)) (forces (sim st)) ->
  neq_null (Node.fx (heap (world st) l)) = neq_null (Node.fy (heap (world st) l)) ->
  let st1 := snd (nodes cos sin (Some arr) st) in
  heap (world (snd (nodes cos sin (Some arr) st1))) l = heap (world st1) l.
Proof.
  intros Hnd Hi Hfs Hsame. cbv zeta.
  rewrite (nodes_heap_nth cos sin _ arr i l Hnd Hi) by exact Hfs.
  rewrite (nodes_heap_nth cos sin st arr i l Hnd Hi Hfs).
  now apply initializeNode_idem.
Qed.

Lemma nodes_twice_witness :
  heap (world (snd (nodes Demo.Math_cos Demo.Math_sin (Some [10; 2]%nat)
                          (snd (nodes Demo.Math_cos Demo.Math_sin (Some [10; 2]%nat)
                                      Demo.st0))))) 2%nat
  = heap (world (snd (nodes Demo.Math_cos Demo.Math_sin (Some [10; 2]%nat) Demo.st0))) 2%nat.
Proof.
  apply (nodes_twice Demo.Math_cos Demo.Math_sin Demo.st0 [10; 2]%nat 1%nat 2%nat
           ltac:(repeat constructor; simpl; intuition discriminate)
           eq_refl
           ltac:(repeat constructor; simpl; reflexivity)
           eq_refl).
Defined.

(** Object 7 is [{fx: 5}]: the first call seeds it at (7.07.., 0), the
    second moves it to (5, 0). *)
Example nodes_twice_moves :
  Node.x (heap (world (snd (nodes Demo.Math_cos Demo.Math_sin (Some [7%nat]) Demo.fresh)))
               7%nat) = Some 7.0710678118654755
  /\ Node.x (heap (world (snd (nodes Demo.Math_cos Demo.Math_sin (Some [7%nat])
                                     (snd (nodes Demo.Math_cos Demo.Math_sin
                                                 (Some [7%nat]) Demo.fresh)))))
                  7%nat) = Some 5.
Proof. split; reflexivity. Qed.

(** ** Zeros in binary64 arithmetic *)

Module FloatZero.

Lemma is_zero_spec (x : float) :
  is_zero x = true <-> exists s, Prim2SF x = S754_zero s.
Proof.
  unfold is_zero. rewrite eqb_spec.
  change (Prim2SF zero) with (S754_zero false). unfold SFeqb.
  destruct (Prim2SF x) as [s|s| |s m e]; simpl.
  - split; eauto.
  - split; [destruct s; discriminate | intros [s' H]; discriminate].
  - split; [discriminate | intros [s' H]; discriminate].
  - split; [destruct s; discriminate | intros [s' H]; discriminate].
Qed.

Lemma is_finite_spec (x : float) : is_finite x = true -> zero_or_finite x.
Proof.
  unfold is_finite, zero_or_finite, is_infinity. intros H.
  apply negb_true_iff, orb_false_iff in H. destruct H as [Hnan Hinf].
  rewrite eqb_spec, abs_spec in Hinf.
  change (Prim2SF infinity) with (S754_infinity false) in Hinf.
  destruct (Prim2SF x) as [s|s| |s m e] eqn:Hx; try exact I.
  - discriminate.
  - assert (Hn : is_nan x = true) by now apply FloatOrder.is_nan_spec.
    congruence.
Qed.

Lemma unit_interval_finite (v : float) : unit_interval v = true -> zero_or_finite v.
Proof.
  unfold unit_interval, zero_or_finite. intros H.
  apply andb_true_iff in H. destruct H as [H0 H1].
  rewrite leb_spec in H0, H1.
  change (Prim2SF 0) with (S754_zero false) in H0.
  destruct (Prim2SF v) as [s|s| |s m e]; try exact I.
  - destruct s; [discriminate H0 | vm_compute in H1; discriminate H1].
  - discriminate H0.
Qed.

Lemma mul_zero_r (x z : float) :
  zero_or_finite x -> is_zero z = true -> is_zero (x * z) = true.
Proof.
  unfold zero_or_finite. intros Hx Hz.
  apply is_zero_spec in Hz. destruct Hz as [s Hz].
  apply is_zero_spec. rewrite mul_spec, Hz. unfold SF64mul.
  destruct (Prim2SF x); try contradiction; simpl; eauto.
Qed.

Lemma mul_zero_l (z x : float) :
  is_zero z = true -> zero_or_finite x -> is_zero (z * x) = true.
Proof.
  unfold zero_or_finite. intros Hz Hx.
  apply is_zero_spec in Hz. destruct Hz as [s Hz].
  apply is_zero_spec. rewrite mul_spec, Hz. unfold SF64mul.
  destruct (Prim2SF x); try contradiction; simpl; eauto.
Qed.

(** Adding a zero to a number that is not a zero gives the number back. *)
Lemma add_zero_r (a z : float) :
  is_zero a = false -> is_zero z = true -> a + z = a.
Proof.
  intros Hnz Hz. apply Prim2SF_inj. rewrite add_spec.
  apply is_zero_spec in Hz. destruct Hz as [s ->]. unfold SF64add.
  destruct (Prim2SF a) as [sa|sa| |sa m e] eqn:Ha; simpl; try reflexivity.
  assert (is_zero a = true) by (apply is_zero_spec; eauto). congruence.
Qed.

Lemma add_zero_zero (a z : float) :
  is_zero a = true -> is_zero z = true -> is_zero (a + z) = true.
Proof.
  intros Ha Hz. apply is_zero_spec in Ha, Hz.
  destruct Ha as [sa Ha], Hz as [sz Hz].
  apply is_zero_spec. rewrite add_spec, Ha, Hz. unfold SF64add. simpl.
  destruct sa, sz; eauto.
Qed.

Lemma eqb_zero_zero (a b : float) :
  is_zero a = true -> is_zero b = true -> (a =? b) = true.
Proof.
  intros Ha Hb. apply is_zero_spec in Ha, Hb.
  destruct Ha as [sa Ha], Hb as [sb Hb].
  rewrite eqb_spec, Ha, Hb. reflexivity.
Qed.

Lemma eqb_refl (a : float) : is_nan a = false -> (a =? a) = true.
Proof. unfold is_nan. intros H. now apply negb_false_iff in H. Qed.

Lemma is_zero_not_nan (a : float) : is_zero a = true -> is_nan a = false.
Proof.
  intros H. apply is_zero_spec in H. destruct H as [s H].
  destruct (is_nan a) eqn:Hn; [|reflexivity].
  apply FloatOrder.is_nan_spec in Hn. congruence.
Qed.

End FloatZero.

(** ** More on [tick] *)

Lemma tick_loop_app {E Rand} (m n : nat) :
  forall st : State E Rand, tick_loop (m + n) st = tick_loop n (tick_loop m st).
Proof.
  induction m as [|m IH]; intros st; simpl; [reflexivity | apply IH].
Qed.

(** X10.  Running [tick(m)] and then [tick(n)] leaves the simulation and
    every node object exactly as one call [tick(m + n)] does. *)
Theorem tick_additive {E Rand} (st : State E Rand) (m n : nat) :
  tick (Some n) (snd (tick (Some m) st)) = tick (Some (m + n)%nat) st.
Proof. unfold tick. cbn [snd]. now rewrite tick_loop_app. Qed.



Lemma integrateNodes_notin vd (arr : list loc) :
  forall h l, ~ In l arr -> integrateNodes vd arr h l = h l.
Proof.
  intros h l Hout. rewrite integrateNodes_count.
  now rewrite (proj1 (count_occ_not_In Nat.eq_dec arr l) Hout).
Qed.

(** A property of one object that [integrate] keeps is kept by the inner
    loop. *)
Lemma integrateNodes_inv vd (P : Node.t -> Prop) :
  (forall n, P n -> P (integrate vd n)) ->
  forall arr h l, P (h l) -> P (integrateNodes vd arr h l).
Proof.
  intros Hstep arr h l HP. rewrite integrateNodes_count.
  induction (count_occ Nat.eq_dec arr l) as [|c IH]; simpl; auto.
Qed.

(** In a simulation without forces, a property of one object that
    [integrate] keeps, whatever the decay, is kept by [tick]. *)
Lemma tick_loop_inv {E Rand} (P : Node.t -> Prop) (l : loc) (vd : float) :
  (forall n, P n -> P (integrate vd n)) ->
  forall (k : nat) (st : State E Rand),
    forces (sim st) = [] ->
    _velocityDecay (sim st) = vd ->
    P (heap (world st) l) ->
    P (heap (world (tick_loop k st)) l).
Proof.
  intros Hstep. induction k as [|k IH]; intros st Hfs Hvd HP; simpl.
  - exact HP.
  - apply IH.
    + cbn. exact Hfs.
    + cbn. exact Hvd.
    + unfold tick_iteration. cbn. rewrite Hfs. cbn. rewrite Hvd.
      now apply integrateNodes_inv.
Qed.

Lemma tick_loop_outside {E Rand} (l : loc) :
  forall (k : nat) (st : State E Rand),
    forces (sim st) = [] ->
    ~ In l (_nodes (sim st)) ->
    heap (world (tick_loop k st)) l = heap (world st) l
    /\ ext (world (tick_loop k st)) = ext (world st).
Proof.
  induction k as [|k IH]; intros st Hfs Hout; simpl.
  - now split.
  - destruct (IH (tick_iteration st)) as [Hh He]; [exact Hfs | exact Hout |].
    rewrite Hh, He. unfold tick_iteration. cbn. rewrite Hfs. cbn.
    split; [now apply integrateNodes_notin | reflexivity].
Qed.

(** X12.  In a simulation without forces, [tick] never changes the
    [index], [fx] or [fy] of an object, and leaves an object that is not in
    the node array exactly as it was. *)
Theorem tick_without_forces {E Rand} (st : State E Rand) (iterations : option nat) (l : loc) :
  forces (sim st) = [] ->
  let n := heap (world st) l in
  let n' := heap (world (snd (tick iterations st))) l in
  Node.index n' = Node.index n /\ Node.fx n' = Node.fx n /\ Node.fy n' = Node.fy n
  /\ (~ In l (_nodes (sim st)) -> n' = n).
Proof.
  intros Hfs. cbv zeta. unfold tick. cbn [snd].
  set (k := match iterations with Some n => n | None => 1%nat end).
  split; [|split; [|split]].
  - apply (tick_loop_inv (fun m => Node.index m = Node.index (heap (world st) l))
                         l (_velocityDecay (sim st))); auto.
    intros n <-. unfold integrate. now destruct (Node.fx n), (Node.fy n).
  - apply (tick_loop_inv (fun m => Node.fx m = Node.fx (heap (world st) l))
                         l (_velocityDecay (sim st))); auto.
    intros n <-. unfold integrate. now destruct (Node.fx n), (Node.fy n).
  - apply (tick_loop_inv (fun m => Node.fy m = Node.fy (heap (world st) l))
                         l (_velocityDecay (sim st))); auto.
    intros n <-. unfold integrate. now destruct (Node.fx n), (Node.fy n).
  - intros Hout. now apply tick_loop_outside.
Qed.

Lemma tick_without_forces_witness :
  heap (world (snd (tick (Some 3%nat) (Demo.sim_of [1; 3]%nat)))) 0%nat
  = heap (world (Demo.sim_of [1; 3]%nat)) 0%nat.
Proof.
  apply (proj2 (proj2 (proj2 (tick_without_forces (Demo.sim_of [1; 3]%nat)
                                (Some 3%nat) 0%nat eq_refl)))).
  simpl. intuition discriminate.
Defined.

Lemma rest_at_step (a vd : float) (f : nullable) (p v : option float) :
  zero_or_finite vd ->
  rest_at a f p v ->
  rest_at a f (Some (ToNumber p + ToNumber v * vd)) (Some (ToNumber v * vd)).
Proof.
  intros Hvd (Hf & p' & v' & -> & -> & Hv & Hp). cbn [ToNumber].
  assert (Hz : is_zero (v' * vd) = true) by now apply FloatZero.mul_zero_l.
  split; [exact Hf|]. do 2 eexists. repeat split; [exact Hz|].
  destruct (is_zero p') eqn:Hp'.
  - right. split; [now apply FloatZero.add_zero_zero|].
    destruct Hp as [<-|[_ Ha]]; assumption.
  - left. rewrite (FloatZero.add_zero_r p' _ Hp' Hz).
    destruct Hp as [Hp|[Hp _]]; [exact Hp | congruence].
Qed.

Lemma integrate_rest (vd a b : float) (n : Node.t) :
  zero_or_finite vd ->
  rest_at a (Node.fx n) (Node.x n) (Node.vx n)
  /\ rest_at b (Node.fy n) (Node.y n) (Node.vy n) ->
  let n' := integrate vd n in
  rest_at a (Node.fx n') (Node.x n') (Node.vx n')
  /\ rest_at b (Node.fy n') (Node.y n') (Node.vy n').
Proof.
  intros Hvd [Hx Hy]. cbv zeta.
  pose proof (rest_at_step a vd _ _ _ Hvd Hx) as Hx'.
  pose proof (rest_at_step b vd _ _ _ Hvd Hy) as Hy'.
  destruct Hx as [Hfx _], Hy as [Hfy _]. unfold integrate.
  destruct (Node.fx n); try discriminate; destruct (Node.fy n); try discriminate;
    cbn; split; assumption.
Qed.

Lemma rest_at_eqb (a : float) (f : nullable) (p v : option float) :
  is_nan a = false ->
  rest_at a f p v ->
  exists p' v', p = Some p' /\ v = Some v' /\ (p' =? a) = true /\ (v' =? 0) = true.
Proof.
  intros Ha (_ & p' & v' & -> & -> & Hv & Hp).
  exists p', v'. repeat split; [|exact Hv].
  destruct Hp as [->|[Hp Hz]];
    [now apply FloatZero.eqb_refl | now apply FloatZero.eqb_zero_zero].
Qed.

(** X13.  In a simulation without forces whose stored velocity decay is in
    [0, 1], a free node at rest stays where it is: if [fx] and [fy] are
    absent, [vx] and [vy] are zero and [x], [y] are numbers, then after any
    number of iterations of [tick] the velocity is still zero and the
    position still equals [(x, y)]. *)
Theorem tick_rest {E Rand} (st : State E Rand) (iterations : option nat)
        (l : loc) (a b va vb : float) :
  forces (sim st) = [] ->
  unit_interval (_velocityDecay (sim st)) = true ->
  let n := heap (world st) l in
  neq_null (Node.fx n) = false -> neq_null (Node.fy n) = false ->
  Node.x n = Some a -> Node.y n = Some b ->
  is_nan a = false -> is_nan b = false ->
  Node.vx n = Some va -> Node.vy n = Some vb ->
  (va =? 0) = true -> (vb =? 0) = true ->
  let n' := heap (world (snd (tick iterations st))) l in
  exists a' b' va' vb',
    Node.x n' = Some a' /\ Node.y n' = Some b'
    /\ Node.vx n' = Some va' /\ Node.vy n' = Some vb'
    /\ (a' =? a) = true /\ (b' =? b) = true
    /\ (va' =? 0) = true /\ (vb' =? 0) = true.
Proof.
  intros Hfs Hvd n Hfx Hfy Hx Hy Ha Hb Hvx Hvy Hva Hvb n'.
  assert (Hrest : rest_at a (Node.fx n') (Node.x n') (Node.vx n')
                  /\ rest_at b (Node.fy n') (Node.y n') (Node.vy n')).
  { subst n'. unfold tick. cbn [snd].
    apply (tick_loop_inv
             (fun m => rest_at a (Node.fx m) (Node.x m) (Node.vx m)
                       /\ rest_at b (Node.fy m) (Node.y m) (Node.vy m))
             l (_velocityDecay (sim st))); auto.
    - intros m Hm. apply integrate_rest; [|exact Hm].
      now apply FloatZero.unit_interval_finite.
    - fold n. split; (split; [assumption|]); do 2 eexists;
        repeat split; eauto. }
  destruct Hrest as [Hrx Hry].
  destruct (rest_at_eqb a _ _ _ Ha Hrx) as (a' & va' & Ea & Eva & Ca & Cva).
  destruct (rest_at_eqb b _ _ _ Hb Hry) as (b' & vb' & Eb & Evb & Cb & Cvb).
  exists a', b', va', vb'. repeat split; assumption.
Qed.

(** Object 3 of the examples, at (10, 16) with zero velocity, after five
    iterations. *)
Lemma tick_rest_witness :
  exists a' b' va' vb',
    Node.x (heap (world (snd (tick (Some 5%nat) (Demo.sim_of [1; 3]%nat)))) 3%nat) = Some a'
    /\ Node.y (heap (world (snd (tick (Some 5%nat) (Demo.sim_of [1; 3]%nat)))) 3%nat) = Some b'
    /\ Node.vx (heap (world (snd (tick (Some 5%nat) (Demo.sim_of [1; 3]%nat)))) 3%nat) = Some va'
    /\ Node.vy (heap (world (snd (tick (Some 5%nat) (Demo.sim_of [1; 3]%nat)))) 3%nat) = Some vb'
    /\ (a' =? 10) = true /\ (b' =? 16) = true
    /\ (va' =? 0) = true /\ (vb' =? 0) = true.
Proof.
  apply (tick_rest (Demo.sim_of [1; 3]%nat) (Some 5%nat) 3%nat 10 16 0 0
           eq_refl eq_refl eq_refl eq_refl eq_refl eq_refl eq_refl eq_refl
           eq_refl eq_refl eq_refl eq_refl).
Defined.

Lemma tick_loop_alpha_frozen {E Rand} :
  forall (k : nat) (st : State E Rand),
    is_zero (_alphaDecay (sim st)) = true ->
    is_finite (_alphaTarget (sim st) - _alpha (sim st)) = true ->
    is_zero (_alpha (sim st)) = false ->
    _alpha (sim (tick_loop k st)) = _alpha (sim st).
Proof.
  induction k as [|k IH]; intros st Hd Hfin Hnz; simpl.
  - reflexivity.
  - assert (Hstep : _alpha (sim (tick_iteration st)) = _alpha (sim st)).
    { cbn. apply FloatZero.add_zero_r; [exact Hnz|].
      apply FloatZero.mul_zero_r; [now apply FloatZero.is_finite_spec | exact Hd]. }
    rewrite IH; [exact Hstep | exact Hd | | ].
    + rewrite Hstep. exact Hfin.
    + rewrite Hstep. exact Hnz.
Qed.

(** X14.  With an alpha decay of zero the simulation keeps its alpha: if
    the stored [alphaDecay] is zero, alpha is not zero and
    [alphaTarget - alpha] is finite, then after any number of iterations of
    [tick] alpha is exactly what it was. *)
Theorem tick_alphaDecay_zero {E Rand} (st : State E Rand) (iterations : option nat) :
  (_alphaDecay (sim st) =? 0) = true ->
  is_finite (_alphaTarget (sim st) - _alpha (sim st)) = true ->
  (_alpha (sim st) =? 0) = false ->
  _alpha (sim (snd (tick iterations st))) = _alpha (sim st).
Proof.
  intros Hd Hfin Hnz. unfold tick. cbn [snd]. now apply tick_loop_alpha_frozen.
Qed.

Lemma tick_alphaDecay_zero_witness :
  _alpha (sim (snd (tick (Some 7%nat) (snd (alphaDecay (Some 0) Demo.st0))))) = 1.
Proof.
  apply (tick_alphaDecay_zero (snd (alphaDecay (Some 0) Demo.st0)) (Some 7%nat)
           eq_refl eq_refl eq_refl).
Defined.

(** ** More on the order of binary64 numbers, and NaN *)

Module FloatCompare.

Lemma SFcompare_eq_lt_trans (a b c : spec_float) :
  SFcompare a b = Some Eq -> SFcompare b c = Some Lt -> SFcompare a c = Some Lt.
Proof.
  destruct a as [sa|sa| |sa ma ea], b as [sb|sb| |sb mb eb], c as [sc|sc| |sc mc ec];
    simpl; try discriminate; try (intros; assumption);
    try (destruct sa; try discriminate; destruct sb; try discriminate;
         destruct sc; try discriminate; intros; reflexivity || assumption);
    try (destruct sa, sb; try discriminate; destruct sc;
         discriminate || reflexivity || (intros; assumption)).
  all: destruct sa, sb, sc; try discriminate; try reflexivity.
  all: destruct (Z.compare_spec ea eb), (Z.compare_spec eb ec), (Z.compare_spec ea ec);
    try discriminate; try lia; try reflexivity.
  all: destruct (FloatOrder.compare_cont_spec ma mb), (FloatOrder.compare_cont_spec mb mc),
         (FloatOrder.compare_cont_spec ma mc);
    simpl; try discriminate; try lia; try reflexivity.
Qed.

Lemma SFcompare_lt_eq_trans (a b c : spec_float) :
  SFcompare a b = Some Lt -> SFcompare b c = Some Eq -> SFcompare a c = Some Lt.
Proof.
  destruct a as [sa|sa| |sa ma ea], b as [sb|sb| |sb mb eb], c as [sc|sc| |sc mc ec];
    simpl; try discriminate; try (intros; assumption);
    try (destruct sa; try discriminate; destruct sb; try discriminate;
         destruct sc; try discriminate; intros; reflexivity || assumption);
    try (destruct sa, sb; try discriminate; destruct sc;
         discriminate || reflexivity || (intros; assumption)).
  all: destruct sa, sb, sc; try discriminate; try reflexivity.
  all: destruct (Z.compare_spec ea eb), (Z.compare_spec eb ec), (Z.compare_spec ea ec);
    try discriminate; try lia; try reflexivity.
  all: destruct (FloatOrder.compare_cont_spec ma mb), (FloatOrder.compare_cont_spec mb mc),
         (FloatOrder.compare_cont_spec ma mc);
    simpl; try discriminate; try lia; try reflexivity.
Qed.

Lemma leb_ltb_trans (x y z : float) :
  (x <=? y) = true -> (y <? z) = true -> (x <? z) = true.
Proof.
  rewrite leb_spec, !ltb_spec. unfold SFleb, SFltb.
  destruct (SFcompare (Prim2SF x) (Prim2SF y)) as [[]|] eqn:H1; try discriminate;
    destruct (SFcompare (Prim2SF y) (Prim2SF z)) as [[]|] eqn:H2; try discriminate;
    intros _ _.
  - now rewrite (SFcompare_eq_lt_trans _ _ _ H1 H2).
  - now rewrite (FloatOrder.SFcompare_lt_trans _ _ _ H1 H2).
Qed.

Lemma ltb_leb_trans (x y z : float) :
  (x <? y) = true -> (y <=? z) = true -> (x <? z) = true.
Proof.
  rewrite leb_spec, !ltb_spec. unfold SFleb, SFltb.
  destruct (SFcompare (Prim2SF x) (Prim2SF y)) as [[]|] eqn:H1; try discriminate;
    destruct (SFcompare (Prim2SF y) (Prim2SF z)) as [[]|] eqn:H2; try discriminate;
    intros _ _.
  - now rewrite (SFcompare_lt_eq_trans _ _ _ H1 H2).
  - now rewrite (FloatOrder.SFcompare_lt_trans _ _ _ H1 H2).
Qed.

(** A comparison that holds has numbers on both sides. *)
Lemma ltb_numbers (x y : float) :
  (x <? y) = true -> is_nan x = false /\ is_nan y = false.
Proof.
  rewrite ltb_spec. unfold SFltb. intros H.
  split; destruct (is_nan _) eqn:Hn; try reflexivity;
    apply FloatOrder.is_nan_spec in Hn; rewrite Hn in H;
    [|destruct (Prim2SF x)]; discriminate.
Qed.

Lemma leb_numbers (x y : float) :
  (x <=? y) = true -> is_nan x = false /\ is_nan y = false.
Proof.
  rewrite leb_spec. unfold SFleb. intros H.
  split; destruct (is_nan _) eqn:Hn; try reflexivity;
    apply FloatOrder.is_nan_spec in Hn; rewrite Hn in H;
    [|destruct (Prim2SF x)]; discriminate.
Qed.

(** On numbers, [x < y] fails exactly when [y <= x]. *)
Lemma ltb_false_leb (x y : float) :
  is_nan x = false -> is_nan y = false -> (x <? y) = false -> (y <=? x) = true.
Proof.
  intros Hx Hy. rewrite ltb_spec, leb_spec. unfold SFltb, SFleb.
  rewrite (FloatOrder.SFcompare_antisym (Prim2SF x) (Prim2SF y)).
  assert (Hx' : Prim2SF x <> S754_nan)
    by (intro H; apply FloatOrder.is_nan_spec in H; congruence).
  assert (Hy' : Prim2SF y <> S754_nan)
    by (intro H; apply FloatOrder.is_nan_spec in H; congruence).
  pose proof (FloatOrder.SFcompare_total _ _ Hx' Hy') as Ht.
  destruct (SFcompare (Prim2SF x) (Prim2SF y)) as [[]|]; simpl; congruence.
Qed.

Lemma leb_infinity (x : float) : is_nan x = false -> (x <=? infinity) = true.
Proof.
  intros Hx. rewrite leb_spec. unfold SFleb.
  change (Prim2SF infinity) with (S754_infinity false).
  destruct (Prim2SF x) as [s|s| |s m e] eqn:E; simpl; try reflexivity.
  - now destruct s.
  - assert (is_nan x = true) by now apply FloatOrder.is_nan_spec. congruence.
Qed.

Lemma sub_nan (x y : float) :
  is_nan x = true \/ is_nan y = true -> is_nan (x - y) = true.
Proof.
  intros H. apply FloatOrder.is_nan_spec. rewrite sub_spec. unfold SF64sub.
  destruct H as [H|H]; apply FloatOrder.is_nan_spec in H; rewrite H;
    [reflexivity | now destruct (Prim2SF x)].
Qed.

Lemma mul_nan (x y : float) :
  is_nan x = true \/ is_nan y = true -> is_nan (x * y) = true.
Proof.
  intros H. apply FloatOrder.is_nan_spec. rewrite mul_spec. unfold SF64mul.
  destruct H as [H|H]; apply FloatOrder.is_nan_spec in H; rewrite H;
    [reflexivity | now destruct (Prim2SF x)].
Qed.

Lemma add_nan (x y : float) :
  is_nan x = true \/ is_nan y = true -> is_nan (x + y) = true.
Proof.
  intros H. apply FloatOrder.is_nan_spec. rewrite add_spec. unfold SF64add.
  destruct H as [H|H]; apply FloatOrder.is_nan_spec in H; rewrite H;
    [reflexivity | now destruct (Prim2SF x)].
Qed.

End FloatCompare.

(** ** More on [find] *)

Section FindMore.

Variables (x y : float) (h : Heap).

Let d (l : loc) : float := distance2 x y (h l).

(** A node the scan picks in the array splits it: no node before it is as
    close, no node after it is closer. *)
Lemma find_loop_first (arr : list loc) :
  forall c r res,
    find_loop x y h arr c r = Some res ->
    (c = Some res /\ forall l, In l arr -> (d l <? r) = false)
    \/ (exists pre post,
           arr = (pre ++ res :: post)%list
           /\ (d res <? r) = true
           /\ (forall l, In l pre -> (d l <=? d res) = false)
           /\ (forall l, In l post -> (d l <? d res) = false)).
Proof.
  induction arr as [|a arr IH]; intros c r res; simpl.
  - intros ->. left. split; [reflexivity | intros l []].
  - fold (d a). destruct (d a <? r) eqn:Hlt; intros Hres; apply IH in Hres.
    + right. destruct Hres as [[Hc Hall] | (pre & post & -> & Hbelow & Hpre & Hpost)].
      * injection Hc as <-. exists [], arr. repeat split; auto. intros l [].
      * exists (a :: pre), post. repeat split; auto.
        -- eapply FloatOrder.ltb_trans; eassumption.
        -- intros l [<-|Hl]; [now apply FloatOrder.ltb_not_leb | now apply Hpre].
    + destruct Hres as [[Hc Hall] | (pre & post & -> & Hbelow & Hpre & Hpost)].
      * left. split; auto. intros l [<-|Hl]; auto.
      * right. exists (a :: pre), post. repeat split; auto.
        intros l [<-|Hl]; [|now apply Hpre].
        destruct (d a <=? d res) eqn:Hle; [|reflexivity].
        rewrite (FloatCompare.leb_ltb_trans _ _ _ Hle Hbelow) in Hlt. discriminate.
Qed.

(** Two scans of the same array, the second with a limit at least as large:
    what the first picks in the array, the second picks too. *)
Lemma find_loop_limit (arr : list loc) :
  forall c1 c2 r1 r2 res,
    (r1 <=? r2) = true ->
    find_loop x y h arr c1 r1 = Some res ->
    (c1 = Some res /\ forall l, In l arr -> (d l <? r1) = false)
    \/ find_loop x y h arr c2 r2 = Some res.
Proof.
  induction arr as [|a arr IH]; intros c1 c2 r1 r2 res Hle; simpl.
  - intros ->. left. split; [reflexivity | intros l []].
  - fold (d a). destruct (d a <? r1) eqn:H1.
    + rewrite (FloatCompare.ltb_leb_trans _ _ _ H1 Hle). intros Hres. now right.
    + intros Hres. destruct (d a <? r2) eqn:H2.
      * assert (Hle' : (r1 <=? d a) = true).
        { apply FloatCompare.ltb_false_leb; [| |exact H1].
          - apply (FloatCompare.ltb_numbers _ _ H2).
          - apply (FloatCompare.leb_numbers _ _ Hle). }
        destruct (IH c1 (Some a) r1 (d a) res Hle' Hres) as [[Hc Hall]|Hr]; [left|now right].
        split; [exact Hc | intros l [<-|Hl]; auto].
      * destruct (IH c1 c2 r1 r2 res Hle Hres) as [[Hc Hall]|Hr]; [left|now right].
        split; [exact Hc | intros l [<-|Hl]; auto].
Qed.

End FindMore.

(** X15.  Ties go to the first node: the node [find] returns splits the
    array so that every node before it is not as close (its squared distance
    is not less than or equal to the returned one's) and no node after it is
    strictly closer. *)
Theorem find_first_closest {E Rand} (st : State E Rand) (x y : float)
        (radius : option float) (c : loc) :
  find x y radius st = Some c ->
  let d l := distance2 x y (heap (world st) l) in
  exists pre post,
    _nodes (sim st) = (pre ++ c :: post)%list
    /\ (forall l, In l pre -> (d l <=? d c) = false)
    /\ (forall l, In l post -> (d l <? d c) = false).
Proof.
  unfold find. intros Hc. cbv zeta. apply find_loop_first in Hc.
  destruct Hc as [[Hc _] | (pre & post & Harr & _ & Hpre & Hpost)]; [discriminate|].
  exists pre, post. auto.
Qed.

(** The nodes at (3, 4), (5, 0) and (4, 3) are all at squared distance 25
    of the origin: the first of the array is returned. *)
Lemma find_first_closest_witness :
  find 0 0 None Ties.st = Some 0%nat
  /\ exists pre post,
      _nodes (sim Ties.st) = (pre ++ 0%nat :: post)%list
      /\ (forall l, In l pre ->
                    (distance2 0 0 (heap (world Ties.st) l)
                     <=? distance2 0 0 (heap (world Ties.st) 0%nat)) = false)
      /\ (forall l, In l post ->
                    (distance2 0 0 (heap (world Ties.st) l)
                     <? distance2 0 0 (heap (world Ties.st) 0%nat)) = false).
Proof.
  split; [reflexivity|].
  apply (find_first_closest Ties.st 0 0 None 0%nat eq_refl).
Defined.

(** X16.  A radius only filters.  Whenever [find(x, y, r)] returns a node,
    [find(x, y)] returns that same node, and so does [find(x, y, r')] for
    every [r'] whose square is at least the square of [r]. *)
Theorem find_radius_filters {E Rand} (st : State E Rand) (x y r : float) (c : loc) :
  find x y (Some r) st = Some c ->
  find x y None st = Some c
  /\ forall r', (r * r <=? r' * r') = true -> find x y (Some r') st = Some c.
Proof.
  intros Hc.
  unfold find in *.
  assert (Hnum : is_nan (r * r) = false).
  { destruct (find_loop_result _ _ _ _ _ _ _ Hc) as [[Habs _] | (_ & Hbelow & _)];
      [discriminate|].
    apply (FloatCompare.ltb_numbers _ _ Hbelow). }
  split.
  - destruct (find_loop_limit x y (heap (world st)) (_nodes (sim st))
                None None (r * r) infinity c
                (FloatCompare.leb_infinity _ Hnum) Hc) as [[Habs _]|H];
      [discriminate | exact H].
  - intros r' Hle.
    destruct (find_loop_limit x y (heap (world st)) (_nodes (sim st))
                None None (r * r) (r' * r') c Hle Hc) as [[Habs _]|H];
      [discriminate | exact H].
Qed.

Lemma find_radius_filters_witness :
  find 0 0 None (Demo.sim_of [3; 1; 4]%nat) = Some 1%nat.
Proof.
  apply (proj1 (find_radius_filters (Demo.sim_of [3; 1; 4]%nat) 0 0 6 1%nat eq_refl)).
Defined.

Lemma distance2_nan (x y : float) (n : Node.t) :
  is_nan x = true \/ is_nan y = true
  \/ isNaN (Node.x n) = true \/ isNaN (Node.y n) = true ->
  is_nan (distance2 x y n) = true.
Proof.
  unfold distance2, isNaN. intros H. apply FloatCompare.add_nan.
  destruct H as [H|[H|[H|H]]].
  - left. apply FloatCompare.mul_nan. left. apply FloatCompare.sub_nan. now left.
  - right. apply FloatCompare.mul_nan. left. apply FloatCompare.sub_nan. now left.
  - left. apply FloatCompare.mul_nan. left. apply FloatCompare.sub_nan. now right.
  - right. apply FloatCompare.mul_nan. left. apply FloatCompare.sub_nan. now right.
Qed.

(** X17.  [find] never returns a node whose [x] or [y] is missing or NaN,
    and it returns [undefined] whenever a coordinate of the query point is
    NaN. *)
Theorem find_ignores_nan {E Rand} (st : State E Rand) (x y : float)
        (radius : option float) :
  (forall c, find x y radius st = Some c ->
             isNaN (Node.x (heap (world st) c)) = false
             /\ isNaN (Node.y (heap (world st) c)) = false)
  /\ (is_nan x = true \/ is_nan y = true -> find x y radius st = None).
Proof.
  assert (Hnum : forall c, find x y radius st = Some c ->
                           is_nan (distance2 x y (heap (world st) c)) = false).
  { intros c Hc. unfold find in Hc.
    destruct (find_loop_result _ _ _ _ _ _ _ Hc) as [[Habs _] | (_ & Hbelow & _)];
      [discriminate|].
    apply (FloatCompare.ltb_numbers _ _ Hbelow). }
  split.
  - intros c Hc. specialize (Hnum c Hc).
    split.
    + destruct (isNaN (Node.x (heap (world st) c))) eqn:Hx; [|reflexivity].
      rewrite distance2_nan in Hnum by auto. discriminate.
    + destruct (isNaN (Node.y (heap (world st) c))) eqn:Hy; [|reflexivity].
      rewrite distance2_nan in Hnum by auto. discriminate.
  - intros Hq. destruct (find x y radius st) as [c|] eqn:Hc; [|reflexivity].
    specialize (Hnum c eq_refl).
    rewrite distance2_nan in Hnum by tauto. discriminate.
Qed.

(** ** The annealing schedule *)

Lemma sub_self_zero (a : float) : zero_or_finite a -> is_zero (a - a) = true.
Proof.
  unfold zero_or_finite. intros Ha.
  apply FloatZero.is_zero_spec. rewrite sub_spec. unfold SF64sub.
  destruct (Prim2SF a) as [s|s| |s m e]; try contradiction; simpl.
  - destruct s; eauto.
  - rewrite Z.min_id. unfold shl_align. rewrite !Z.sub_diag. cbn [fst].
    rewrite ?Z.sub_diag. simpl. eauto.
Qed.

Lemma tick_loop_alpha_at_target {E Rand} :
  forall (k : nat) (st : State E Rand),
    _alpha (sim st) = _alphaTarget (sim st) ->
    zero_or_finite (_alpha (sim st)) ->
    zero_or_finite (_alphaDecay (sim st)) ->
    is_zero (_alpha (sim st)) = false ->
    _alpha (sim (tick_loop k st)) = _alpha (sim st).
Proof.
  induction k as [|k IH]; intros st Ht Ha Hd Hnz; simpl.
  - reflexivity.
  - assert (Hstep : _alpha (sim (tick_iteration st)) = _alpha (sim st)).
    { cbn. apply FloatZero.add_zero_r; [exact Hnz|].
      apply FloatZero.mul_zero_l; [|exact Hd].
      rewrite <- Ht. now apply sub_self_zero. }
    rewrite IH; try (rewrite Hstep); auto.
Qed.

(** X18.  Alpha stays at its target: when alpha equals [alphaTarget], both
    are in [0, 1] and not zero, and the alpha decay is in [0, 1], every
    iteration of [tick] leaves alpha exactly where it is. *)
Theorem tick_alpha_at_target {E Rand} (st : State E Rand) (iterations : option nat) :
  _alpha (sim st) = _alphaTarget (sim st) ->
  unit_interval (_alpha (sim st)) = true ->
  unit_interval (_alphaDecay (sim st)) = true ->
  (_alpha (sim st) =? 0) = false ->
  _alpha (sim (snd (tick iterations st))) = _alpha (sim st).
Proof.
  intros Ht Ha Hd Hnz. unfold tick. cbn [snd].
  apply tick_loop_alpha_at_target; auto using FloatZero.unit_interval_finite.
Qed.

Lemma tick_alpha_at_target_witness :
  _alpha (sim (snd (tick (Some 4%nat)
                         (snd (alphaTarget (Some 0.3) (snd (alpha (Some 0.3) Demo.st0)))))))
  = 0.3.
Proof.
  apply (tick_alpha_at_target
           (snd (alphaTarget (Some 0.3) (snd (alpha (Some 0.3) Demo.st0))))
           (Some 4%nat) eq_refl eq_refl eq_refl eq_refl).
Defined.




(** ** Every object of the array is initialised *)

Lemma last_occurrence (l : loc) (arr : list loc) :
  In l arr -> exists pre post, arr = (pre ++ l :: post)%list /\ ~ In l post.
Proof.
  induction arr as [|a arr IH]; intros Hin; [contradiction|].
  destruct (in_dec Nat.eq_dec l arr) as [Hlater|Hlast].
  - destruct (IH Hlater) as (pre & post & -> & Hpost).
    exists (a :: pre), post. now split.
  - destruct Hin as [->|Hin]; [|contradiction].
    exists [], arr. now split.
Qed.

(** X20.  After [nodes(arr)] every object of [arr], also one that occurs
    several times, has an index that is one of its positions in [arr] and a
    velocity whose two components are numbers other than NaN, on every
    platform (the registered forces keeping the nodes when they are
    initialised). *)
Theorem nodes_velocity_defined {E Rand} cos sin (st : State E Rand)
        (arr : list loc) (l : loc) :
  In l arr ->
  Forall (fun kv => keeps_nodes (snd kv)) (forces (sim st)) ->
  let n' := heap (world (snd (nodes cos sin (Some arr) st))) l in
  exists i vx vy,
    Node.index n' = Some i /\ nth_error arr i = Some l
    /\ Node.vx n' = Some vx /\ Node.vy n' = Some vy
    /\ is_nan vx = false /\ is_nan vy = false.
Proof.
  intros Hin Hfs. cbv zeta. rewrite nodes_heap by exact Hfs.
  destruct (last_occurrence l arr Hin) as (pre & post & -> & Hlast).
  rewrite initializeNodes_from_app. simpl.
  rewrite initializeNodes_from_notin by exact Hlast.
  rewrite upd_same.
  set (n := initializeNodes_from cos sin 0 pre (heap (world st)) l).
  destruct (initializeNode_fields cos sin (List.length pre) n) as (Hi & _ & _ & _ & Hv).
  exists (List.length pre).
  assert (Hnth : nth_error (pre ++ l :: post) (List.length pre) = Some l).
  { rewrite nth_error_app2 by lia. now rewrite Nat.sub_diag. }
  destruct (isNaN (Node.vx n) || isNaN (Node.vy n)) eqn:Hc.
  - injection Hv as Hvx Hvy. exists 0, 0. repeat split; assumption.
  - apply orb_false_iff in Hc. destruct Hc as [Hx Hy].
    injection Hv as Hvx Hvy. unfold isNaN, ToNumber in Hx, Hy.
    destruct (Node.vx n) as [vx|]; [|discriminate].
    destruct (Node.vy n) as [vy|]; [|discriminate].
    exists vx, vy. repeat split; assumption.
Qed.

Lemma nodes_velocity_defined_witness :
  exists i vx vy,
    Node.index (heap (world (snd (nodes Demo.Math_cos Demo.Math_sin
                                        (Some [8; 9; 8]%nat) Demo.st0))) 8%nat) = Some i
    /\ nth_error [8; 9; 8]%nat i = Some 8%nat
    /\ Node.vx (heap (world (snd (nodes Demo.Math_cos Demo.Math_sin
                                        (Some [8; 9; 8]%nat) Demo.st0))) 8%nat) = Some vx
    /\ Node.vy (heap (world (snd (nodes Demo.Math_cos Demo.Math_sin
                                        (Some [8; 9; 8]%nat) Demo.st0))) 8%nat) = Some vy
    /\ is_nan vx = false /\ is_nan vy = false.
Proof.
  apply (nodes_velocity_defined Demo.Math_cos Demo.Math_sin Demo.st0 [8; 9; 8]%nat 8%nat
           ltac:(simpl; auto)
           ltac:(repeat constructor; simpl; reflexivity)).
Defined.
